(** * CitySculpt: the tiled baseplate of [scene.js] and its caller [main.js]

    A shallow embedding of [createBaseplate], [setShadow], [setupEnvironment]
    (scene.js) and of [init] and the click handler (main.js), with the part of
    the three.js scene graph these functions read and write. *)

From Stdlib Require Import QArith Qround Lqa ZArith Lia.
From Stdlib Require Import Ascii String.
From stdpp Require Import base list strings.

Local Open Scope Z_scope.

(** ** JavaScript numbers

    A number is NaN, one of the two infinities, or a finite value.  Finite
    values are rationals and arithmetic on them is exact: binary64 rounding
    and overflow are not modelled, and neither is the sign of zero.  For the
    values the application itself produces (integers from [parseInt] below
    2^53, the tile size 4, halves of integers) binary64 arithmetic is exact
    as well. *)
Inductive number : Type :=
| NaN
| Infinity
| NegInfinity
| Num (q : Q).

Definition of_nat (n : nat) : number := Num (inject_Z (Z.of_nat n)).
Definition of_Z (z : Z) : number := Num (inject_Z z).
Arguments of_nat : simpl never.

Definition Qlt_bool (a b : Q) : bool := negb (Qle_bool b a).
Definition Qis_zero (a : Q) : bool := Qeq_bool a 0.
Definition Qis_neg (a : Q) : bool := Qlt_bool a 0.

(** The infinity of the given sign ([true] is negative). *)
Definition inf (negative : bool) : number :=
  if negative then NegInfinity else Infinity.

(** [a / b] *)
Definition div (a b : number) : number :=
  match a, b with
  | NaN, _ | _, NaN => NaN
  | Num p, Num q =>
      if Qis_zero q then
        if Qis_zero p then NaN else inf (Qis_neg p)
      else Num (p / q)
  | Num _, _ => Num 0
  | Infinity, Num q => inf (Qis_neg q)
  | NegInfinity, Num q => inf (negb (Qis_neg q))
  | _, _ => NaN
  end.

(** [a * b] *)
Definition mul (a b : number) : number :=
  match a, b with
  | NaN, _ | _, NaN => NaN
  | Num p, Num q => Num (p * q)
  | Num p, Infinity | Infinity, Num p =>
      if Qis_zero p then NaN else inf (Qis_neg p)
  | Num p, NegInfinity | NegInfinity, Num p =>
      if Qis_zero p then NaN else inf (negb (Qis_neg p))
  | Infinity, Infinity | NegInfinity, NegInfinity => Infinity
  | _, _ => NegInfinity
  end.

(** [a - b] *)
Definition sub (a b : number) : number :=
  match a, b with
  | NaN, _ | _, NaN => NaN
  | Num p, Num q => Num (p - q)
  | Infinity, Infinity | NegInfinity, NegInfinity => NaN
  | Infinity, _ | _, NegInfinity => Infinity
  | _, _ => NegInfinity
  end.

(** [Math.ceil(a)] *)
Definition ceil (a : number) : number :=
  match a with
  | Num q => Num (inject_Z (Qceiling q))
  | _ => a
  end.

(** [a < b]: false as soon as one side is NaN. *)
Definition lt (a b : number) : bool :=
  match a, b with
  | NaN, _ | _, NaN => false
  | Num p, Num q => Qlt_bool p q
  | NegInfinity, NegInfinity => false
  | NegInfinity, _ => true
  | _, Infinity => match a with Infinity => false | _ => true end
  | _, _ => false
  end.

(** [a <= b] *)
Definition le (a b : number) : bool :=
  match a, b with
  | NaN, _ | _, NaN => false
  | Num p, Num q => Qle_bool p q
  | NegInfinity, _ | _, Infinity => true
  | _, _ => false
  end.

(** [-a] *)
Definition neg (a : number) : number :=
  match a with
  | NaN => NaN
  | Infinity => NegInfinity
  | NegInfinity => Infinity
  | Num q => Num (- q)
  end.

(** [a === b] on numbers: NaN differs from everything, itself included. *)
Definition num_eqb (a b : number) : bool :=
  match a, b with
  | Num p, Num q => Qeq_bool p q
  | Infinity, Infinity | NegInfinity, NegInfinity => true
  | _, _ => false
  end.

Declare Scope js_scope.
Delimit Scope js_scope with js.
Bind Scope js_scope with number.
Infix "/" := div : js_scope.
Infix "*" := mul : js_scope.
Infix "-" := sub : js_scope.
Infix "<?" := lt : js_scope.
Infix "<=?" := le : js_scope.
Infix "===" := num_eqb (at level 70) : js_scope.

(** ** The scene graph

    Objects live in a store and are named by their index in it, so that the
    baseplate group handed to the scene and the one the load callbacks fill
    later are the same object. *)
Abbreviation ref := nat.

Record Vector3 : Type := mkVector3 { vx : number; vy : number; vz : number }.

Inductive Geometry : Type :=
| BoxGeometry (width height depth : number)
| AssetGeometry.

Inductive Material : Type :=
| MeshStandardMaterial (color : Z) (roughness : number)
| AssetMaterial.

Inductive ObjectKind : Type :=
| KObject3D
| KScene
| KGroup
| KMesh (geometry : Geometry) (material : Material)
| KAmbientLight (color : Z) (intensity : number)
| KDirectionalLight (color : Z) (intensity : number).

Record Object3D : Type := mkObject3D {
  kind : ObjectKind;
  name : string;
  position : Vector3;
  castShadow : bool;
  receiveShadow : bool;
  children : list ref;
  background : option Z
}.

Definition isMesh (o : Object3D) : bool :=
  match kind o with KMesh _ _ => true | _ => false end.

(** A freshly constructed object: at the origin, unnamed, no shadows, no
    children. *)
Definition new_object (k : ObjectKind) : Object3D :=
  mkObject3D k EmptyString (mkVector3 (Num 0) (Num 0) (Num 0)) false false [] None.

Definition with_name (s : string) (o : Object3D) : Object3D :=
  mkObject3D (kind o) s (position o) (castShadow o) (receiveShadow o)
    (children o) (background o).
Definition with_position (p : Vector3) (o : Object3D) : Object3D :=
  mkObject3D (kind o) (name o) p (castShadow o) (receiveShadow o)
    (children o) (background o).
Definition with_castShadow (b : bool) (o : Object3D) : Object3D :=
  mkObject3D (kind o) (name o) (position o) b (receiveShadow o)
    (children o) (background o).
Definition with_receiveShadow (b : bool) (o : Object3D) : Object3D :=
  mkObject3D (kind o) (name o) (position o) (castShadow o) b
    (children o) (background o).
Definition with_children (l : list ref) (o : Object3D) : Object3D :=
  mkObject3D (kind o) (name o) (position o) (castShadow o) (receiveShadow o)
    l (background o).
Definition with_background (c : option Z) (o : Object3D) : Object3D :=
  mkObject3D (kind o) (name o) (position o) (castShadow o) (receiveShadow o)
    (children o) c.

(** The closure passed to [loader.load] in [createBaseplate]: the function
    body is [baseTileLoaded] below, these are the variables it captures. *)
Record Callback : Type := mkCallback {
  posX : number;
  yPosition : number;
  posZ : number;
  baseplate : ref
}.

(** A call [loader.load(url, onLoad)] that has not completed yet. *)
Record LoadRequest : Type := mkLoadRequest { url : string; onLoad : Callback }.

Record World : Type := mkWorld {
  heap : list Object3D;
  pending : list LoadRequest
}.

(** ** Computations

    A computation runs in a world and returns a value, throws, or does not
    terminate.  An exception leaves the mutations made before it in place. *)
Inductive outcome (A : Type) : Type :=
| Returns (a : A) (w : World)
| Throws (e : string) (w : World)
| Diverges.
Arguments Returns {A} a w.
Arguments Throws {A} e w.
Arguments Diverges {A}.

Definition M (A : Type) : Type := World -> outcome A.

Definition ret {A} (a : A) : M A := fun w => Returns a w.

Definition bind {A B} (m : M A) (k : A -> M B) : M B := fun w =>
  match m w with
  | Returns a w' => k a w'
  | Throws e w' => Throws e w'
  | Diverges => Diverges
  end.

Definition throw {A} (e : string) : M A := fun w => Throws e w.

Notation "x <- m ;; k" := (bind m (fun x => k))
  (at level 100, m at next level, right associativity) : js_scope.
Notation "m ;;; k" := (bind m (fun _ => k))
  (at level 100, right associativity) : js_scope.

Local Open Scope js_scope.

(** [for (const a of l) body(a)] *)
Fixpoint forEach {A} (l : list A) (body : A -> M unit) : M unit :=
  match l with
  | [] => ret tt
  | a :: l' => body a ;;; forEach l' body
  end.

(** [for (let i = from; i < bound; i++) body(i)], unrolled at most [fuel]
    times. *)
Fixpoint for_from (fuel : nat) (i : nat) (bound : number)
    (body : number -> M unit) : M unit :=
  if of_nat i <? bound then
    match fuel with
    | O => fun _ => Diverges
    | S fuel' => body (of_nat i) ;;; for_from fuel' (S i) bound body
    end
  else ret tt.

(** How often a loop counting up from 0 passes the test [i < bound]; [None]
    when it passes it for ever. *)
Definition iterations (bound : number) : option nat :=
  match bound with
  | Num q => Some (Z.to_nat (Qceiling q))
  | Infinity => None
  | _ => Some O
  end.

(** [for (let i = 0; i < bound; i++) body(i)] *)
Definition for_lt (bound : number) (body : number -> M unit) : M unit :=
  match iterations bound with
  | Some n => for_from n O bound body
  | None => fun _ => Diverges
  end.

(** *** Store operations *)

(** [new ...]: the object gets the next free index. *)
Definition alloc (o : Object3D) : M ref := fun w =>
  Returns (length (heap w)) (mkWorld (heap w ++ [o]) (pending w)).

Definition get (r : ref) : M Object3D := fun w =>
  match heap w !! r with
  | Some o => Returns o w
  | None => Throws "TypeError" w
  end.

Definition modify (r : ref) (f : Object3D -> Object3D) : M unit := fun w =>
  match heap w !! r with
  | Some o => Returns tt (mkWorld (<[r := f o]> (heap w)) (pending w))
  | None => Throws "TypeError" w
  end.

(** [parent.add(child)].  Every object this program adds is new and has no
    parent yet, so [add] only appends to [parent.children]. *)
Definition add (parent child : ref) : M unit :=
  modify parent (fun o => with_children (children o ++ [child]) o).

(** [object.position.set(x, y, z)] *)
Definition position_set (object : ref) (x y z : number) : M unit :=
  modify object (with_position (mkVector3 x y z)).

(** [loader.load(url, onLoad)]: the request is queued; [onLoad] runs later,
    if and when the asset arrives. *)
Definition loader_load (u : string) (cb : Callback) : M unit := fun w =>
  Returns tt (mkWorld (heap w) (pending w ++ [mkLoadRequest u cb])).

(** [object.traverse(callback)]: the callback on the object, then on every
    descendant, depth first.  The recursion depth is bounded by [fuel];
    running out of it is the engine's stack overflow. *)
Fixpoint traverse_fuel (fuel : nat) (object : ref) (callback : ref -> M unit)
    : M unit :=
  match fuel with
  | O => throw "RangeError"
  | S fuel' =>
      callback object ;;;
      o <- get object ;;
      forEach (children o) (fun child => traverse_fuel fuel' child callback)
  end.

(** A path without a repeated object has at most as many objects as the
    store, so in a store of trees this fuel is never used up. *)
Definition traverse (object : ref) (callback : ref -> M unit) : M unit :=
  fun w => traverse_fuel (S (length (heap w))) object callback w.

(** ** scene.js *)

(** The tile grid of [createBaseplate]: its first four constants. *)
Definition tilesX (width tileSize : number) : number := ceil (width / tileSize).
Definition tilesZ (length tileSize : number) : number := ceil (length / tileSize).
Definition offsetX (tilesX tileSize : number) : number :=
  (tilesX * tileSize) / Num 2 - tileSize / Num 2.
Definition offsetZ (tilesZ tileSize : number) : number :=
  (tilesZ * tileSize) / Num 2 - tileSize / Num 2.

(** [setShadow(object, cast = true, receive = true)] *)
Definition setShadow (object : ref) (cast receive : option bool) : M unit :=
  let cast := default true cast in
  let receive := default true receive in
  traverse object (fun child =>
    c <- get child ;;
    if isMesh c then
      modify child (with_castShadow cast) ;;;
      modify child (with_receiveShadow receive)
    else ret tt).

(** What the loader hands to [onLoad]. *)
Record GLTF : Type := mkGLTF { gltf_scene : ref }.

(** The body of the function passed to [loader.load], run when the asset of
    one tile has arrived. *)
Definition baseTileLoaded (cb : Callback) (gltf : GLTF) : M unit :=
  let tile := gltf_scene gltf in
  position_set tile (posX cb) (yPosition cb) (posZ cb) ;;;
  setShadow tile (Some false) (Some true) ;;;
  add (baseplate cb) tile.

(** [createBaseplate(scene, width, length, yPosition = -4, tileSize = 4)]
    with its local constant [useTileAsset] as a parameter; an argument left
    out is [None]. *)
Definition createBaseplateWith (useTileAsset : bool) (scene : ref)
    (width length : number) (yPosition tileSize : option number) : M ref :=
  let yPosition := default (Num (-4)) yPosition in
  let tileSize := default (Num 4) tileSize in
  baseplate <- alloc (new_object KGroup) ;;
  modify baseplate (with_name "Baseplate") ;;;
  let tilesX := tilesX width tileSize in
  let tilesZ := tilesZ length tileSize in
  let offsetX := offsetX tilesX tileSize in
  let offsetZ := offsetZ tilesZ tileSize in
  (if useTileAsset then
     for_lt tilesX (fun x =>
       for_lt tilesZ (fun z =>
         let posX := (x * tileSize) - offsetX in
         let posZ := (z * tileSize) - offsetZ in
         loader_load "./assets/base_tile.glb"
           (mkCallback posX yPosition posZ baseplate)))
   else
     let geometry := BoxGeometry tileSize (Num 0.5) tileSize in
     let material := MeshStandardMaterial 0x333333 (Num 0.8) in
     for_lt tilesX (fun x =>
       for_lt tilesZ (fun z =>
         tile <- alloc (new_object (KMesh geometry material)) ;;
         position_set tile
           ((x * tileSize) - offsetX)
           yPosition
           ((z * tileSize) - offsetZ) ;;;
         modify tile (with_receiveShadow true) ;;;
         modify tile (with_castShadow false) ;;;
         add baseplate tile))) ;;;
  add scene baseplate ;;;
  ret baseplate.

(** The flag as the source sets it. *)
Definition useTileAsset : bool := true.

Definition createBaseplate : ref -> number -> number ->
    option number -> option number -> M ref :=
  createBaseplateWith useTileAsset.

(** [setupEnvironment(scene, baseplateWidth = 80, baseplateLength = 80)] *)
Definition setupEnvironment (scene : ref)
    (baseplateWidth baseplateLength : option number) : M unit :=
  let baseplateWidth := default (Num 80) baseplateWidth in
  let baseplateLength := default (Num 80) baseplateLength in
  let sceneBackground := 0x9ad0ec in
  modify scene (with_background (Some sceneBackground)) ;;;
  let position := mkVector3 (Num 0) (Num (-4)) (Num 0) in
  createBaseplate scene baseplateWidth baseplateLength (Some (vy position)) None ;;;
  ret tt.

(** ** main.js *)

(** *** [parseInt(string)]

    Strings are sequences of one-byte characters here.  The result is exact,
    also beyond 2^53. *)
Definition is_whitespace (c : ascii) : bool :=
  let n := nat_of_ascii c in
  ((9 <=? n)%nat && (n <=? 13)%nat) || (n =? 32)%nat.

Fixpoint trim_start (s : string) : string :=
  match s with
  | String c s' => if is_whitespace c then trim_start s' else s
  | EmptyString => s
  end.

(** The value of a digit in the given radix, if it is one. *)
Definition digit_value (radix : nat) (c : ascii) : option Z :=
  let n := nat_of_ascii c in
  let v :=
    if (48 <=? n)%nat && (n <=? 57)%nat then Some (n - 48)%nat
    else if (97 <=? n)%nat && (n <=? 122)%nat then Some (n - 87)%nat
    else if (65 <=? n)%nat && (n <=? 90)%nat then Some (n - 55)%nat
    else None in
  match v with
  | Some d => if (d <? radix)%nat then Some (Z.of_nat d) else None
  | None => None
  end.

(** The value of the longest prefix of digits, [acc] being that of the
    digits read so far ([None]: none read yet). *)
Fixpoint parse_digits (radix : nat) (s : string) (acc : option Z) : option Z :=
  match s with
  | String c s' =>
      match digit_value radix c with
      | Some d => parse_digits radix s' (Some (default 0 acc * Z.of_nat radix + d))
      | None => acc
      end
  | EmptyString => acc
  end.

Definition parseInt (input : string) : number :=
  let s := trim_start input in
  let '(sign, s) :=
    match s with
    | String "-" s' => (-1, s')
    | String "+" s' => (1, s')
    | _ => (1, s)
    end in
  let '(radix, s) :=
    match s with
    | String "0" (String "x" s') | String "0" (String "X" s') => (16%nat, s')
    | _ => (10%nat, s)
    end in
  match parse_digits radix s None with
  | Some n => of_Z (sign * n)
  | None => NaN
  end.

(** *** [init(baseplateWidth = 100, baseplateLength = 100)]

    Only the scene it builds is modelled: the renderer, the camera, the orbit
    controls, the shadow map settings of the light, the resize listener and
    the animation loop do not touch the scene graph. *)
Definition init (baseplateWidth baseplateLength : option number) : M unit :=
  let baseplateWidth := default (Num 100) baseplateWidth in
  let baseplateLength := default (Num 100) baseplateLength in
  scene <- alloc (new_object KScene) ;;
  ambientLight <- alloc (new_object (KAmbientLight 0xffffff (Num 0.5))) ;;
  add scene ambientLight ;;;
  directionalLight <- alloc (new_object (KDirectionalLight 0xffffff (Num 1))) ;;
  position_set directionalLight (Num 50) (Num 100) (Num 50) ;;;
  modify directionalLight (with_castShadow true) ;;;
  add scene directionalLight ;;;
  setupEnvironment scene (Some baseplateWidth) (Some baseplateLength).

(** The click handler of the "Generate Baseplate" button, as a function of
    the [value] of the two inputs.  Emptying [document.body] and putting the
    form back are outside the model. *)
Definition generateButton_click (widthInput_value lengthInput_value : string)
    : M unit :=
  init (Some (parseInt widthInput_value)) (Some (parseInt lengthInput_value)).

(** ** Observations *)

Definition empty_world : World := mkWorld [] [].

(** The position a pending request will give its tile. *)
Definition request_position (r : LoadRequest) : Vector3 :=
  mkVector3 (posX (onLoad r)) (yPosition (onLoad r)) (posZ (onLoad r)).

(** The requests issued between two worlds. *)
Definition requested (before after : World) : list LoadRequest :=
  drop (length (pending before)) (pending after).

(** The positions of the children of a group, in the order they were added. *)
Definition child_positions (w : World) (group : ref) : list Vector3 :=
  match heap w !! group with
  | Some g => omap (fun t => position <$> heap w !! t) (children g)
  | None => []
  end.

(** The tile placements of one call of [createBaseplateWith], which ran from
    world [before] to [after] and returned [baseplate]: with assets, the
    positions queued with the load requests; without, the positions of the
    meshes in the group. *)
Definition placements (useTileAsset : bool) (before after : World)
    (baseplate : ref) : list Vector3 :=
  if useTileAsset then request_position <$> requested before after
  else child_positions after baseplate.

(** The grid cells in the order the two loops visit them: [x] outside, [z]
    inside. *)
Definition cells (n m : nat) : list (nat * nat) := list_prod (seq 0 n) (seq 0 m).

(** ** What one call of [createBaseplate] builds *)

Definition asset_url : string := "./assets/base_tile.glb".

Section Tiles.
Variables (tileSize yPosition offX offZ : number).

(** The centre of the tile of one cell. *)
Definition tile_position (c : nat * nat) : Vector3 :=
  mkVector3 ((of_nat c.1 * tileSize) - offX) yPosition
            ((of_nat c.2 * tileSize) - offZ).

(** The load request of one cell, for the group [bp]. *)
Definition tile_request (bp : ref) (c : nat * nat) : LoadRequest :=
  mkLoadRequest asset_url
    (mkCallback ((of_nat c.1 * tileSize) - offX) yPosition
                ((of_nat c.2 * tileSize) - offZ) bp).

(** The box of one cell. *)
Definition tile_mesh (c : nat * nat) : Object3D :=
  mkObject3D
    (KMesh (BoxGeometry tileSize (Num 0.5) tileSize)
           (MeshStandardMaterial 0x333333 (Num 0.8)))
    EmptyString (tile_position c) false true [] None.
End Tiles.

(** The group [createBaseplate] creates, before any tile is added. *)
Definition baseplate_group : Object3D := with_name "Baseplate" (new_object KGroup).

(** The world one call leaves behind when it starts in [w], is given the
    object [s] at [scene], and its loops make [n] and [m] iterations. *)
Definition built_world (useTileAsset : bool) (w : World) (scene : ref)
    (s : Object3D) (width len y ts : number) (n m : nat) : World :=
  let bp := length (heap w) in
  let offX := offsetX (tilesX width ts) ts in
  let offZ := offsetZ (tilesZ len ts) ts in
  let s' := with_children (children s ++ [bp]) s in
  if useTileAsset then
    mkWorld (<[scene := s']> (heap w ++ [baseplate_group]))
            (pending w ++ (tile_request ts y offX offZ bp <$> cells n m))
  else
    mkWorld (<[scene := s']>
               (heap w
                ++ with_children (seq (S bp) (length (cells n m))) baseplate_group
                   :: (tile_mesh ts y offX offZ <$> cells n m)))
            (pending w).

(** ** The specification's calculator *)

(** The calculator of the specification, from its words: [columns] and [rows]
    are the ceilings of the quotients, the offsets centre the grid, and there
    is one placement per cell.  Compared with the code below. *)
Definition spec_coordinate (count : Z) (tileSize : Q) (index : nat) : Q :=
  inject_Z (Z.of_nat index) * tileSize
  - (inject_Z count * tileSize / 2 - tileSize / 2).

Definition spec_columns (width tileSize : Q) : Z := Qceiling (width / tileSize).
Definition spec_rows (len tileSize : Q) : Z := Qceiling (len / tileSize).

Definition spec_computeTilePlacements (width len tileSize : Q)
    (plateHeight : number) : list Vector3 :=
  let columns := spec_columns width tileSize in
  let rows := spec_rows len tileSize in
  (fun c => mkVector3 (Num (spec_coordinate columns tileSize c.1)) plateHeight
                      (Num (spec_coordinate rows tileSize c.2)))
    <$> cells (Z.to_nat columns) (Z.to_nat rows).

(** A world with a scene and nothing else, for examples. *)
Definition test_scene : World := mkWorld [new_object KScene] [].

(** The world after one call on it. *)
Definition after_first_call : World :=
  match createBaseplateWith true 0%nat (Num 9) (Num 7) None None test_scene with
  | Returns _ w' => w'
  | _ => test_scene
  end.

(** The least and the greatest of a list of numbers, by [<]; [None] for the
    empty list. *)
Definition extremum (better : number -> number -> bool) (l : list number)
    : option number :=
  match l with
  | [] => None
  | a :: l' => Some (foldl (fun best b => if better best b then best else b) a l')
  end.
Definition minimum : list number -> option number :=
  extremum (fun a b => a <? b).
Definition maximum : list number -> option number :=
  extremum (fun a b => b <? a).

(** A finite number with its fraction in lowest terms. *)
Definition canonical (a : number) : number :=
  match a with
  | Num q => Num (Qred q)
  | _ => a
  end.
Definition canonical_position (p : Vector3) : Vector3 :=
  mkVector3 (canonical (vx p)) (canonical (vy p)) (canonical (vz p)).

(** The world a computation leaves, whether it returned or threw. *)
Definition world_after {A} (o : outcome A) : option World :=
  match o with
  | Returns _ w | Throws _ w => Some w
  | Diverges => None
  end.

(** A computation that terminates and moves no object. *)
Definition keeps_positions {A} (m : M A) : Prop :=
  forall w, exists w', world_after (m w) = Some w'
                       /\ position <$> heap w' = position <$> heap w.

(** A world with the scene, the baseplate group and a loaded asset: a group
    holding a mesh. *)
Definition asset_world : World :=
  mkWorld [with_children [1%nat] (new_object KScene);
           baseplate_group;
           with_children [3%nat] (new_object KGroup);
           new_object (KMesh AssetGeometry AssetMaterial)]
          [].

(** The positions [createBaseplate] computes, as a function of its four
    numeric inputs: the cells the two loops visit, each at its position. *)
Definition layout (width len yPosition tileSize : number) : list Vector3 :=
  let tX := tilesX width tileSize in
  let tZ := tilesZ len tileSize in
  tile_position tileSize yPosition (offsetX tX tileSize) (offsetZ tZ tileSize)
    <$> cells (default O (iterations tX)) (default O (iterations tZ)).

(** A dimension that is not a positive number: NaN, or at most 0. *)
Definition invalid_dimension (n : number) : Prop :=
  n = NaN \/ exists q, n = Num q /\ (q <= 0)%Q.

(** An input was turned away: the handler threw, or it returned without
    having created a baseplate group. *)
Definition turned_away {A} (before : World) (o : outcome A) : Prop :=
  match o with
  | Throws _ _ => True
  | Returns _ after =>
      Forall (fun ob => name ob <> "Baseplate")
        (drop (length (heap before)) (heap after))
  | Diverges => False
  end.

(** The world a click leaves when the plate has no tile: a scene with its
    background and two lights, and an empty baseplate group in it. *)
Definition world_with_empty_plate (w : World) : World :=
  let scene := length (heap w) in
  mkWorld
    (heap w ++
     [with_background (Some 0x9ad0ec)
        (with_children [scene + 1; scene + 2; scene + 3]%nat (new_object KScene));
      new_object (KAmbientLight 0xffffff (Num 0.5));
      with_castShadow true
        (with_position (mkVector3 (Num 50) (Num 100) (Num 50))
           (new_object (KDirectionalLight 0xffffff (Num 1))));
      baseplate_group])
    (pending w).

(** ** Frames and shapes *)

(** What [setShadow] does to one object it visits. *)
Definition shaded (cast receive : bool) (o : Object3D) : Object3D :=
  if isMesh o then with_receiveShadow receive (with_castShadow cast o) else o.

(** [o'] is [o] up to the shadow flags of a mesh, up to its position when
    [moved], and up to its children when [grown]. *)
Definition same_except (moved grown : bool) (o o' : Object3D) : Prop :=
  kind o' = kind o /\ name o' = name o /\ background o' = background o
  /\ (moved = false -> position o' = position o)
  /\ (grown = false -> children o' = children o)
  /\ (isMesh o = false ->
      castShadow o' = castShadow o /\ receiveShadow o' = receiveShadow o).

(** The worlds a computation may leave: the same requests, the same objects
    at the same indices, each changed at most as [same_except] allows. *)
Definition frame (moved grown : ref -> bool) (w w' : World) : Prop :=
  pending w' = pending w
  /\ length (heap w') = length (heap w)
  /\ forall r o, heap w !! r = Some o ->
       exists o', heap w' !! r = Some o'
                  /\ same_except (moved r) (grown r) o o'.

(** A computation that terminates, by returning or throwing, in a world
    related to the one it started in. *)
Definition keeps (R : World -> World -> Prop) {A} (m : M A) : Prop :=
  forall w, exists w', world_after (m w) = Some w' /\ R w w'.

(** Every path of children from [r] stays inside the store and has fewer
    than [depth] objects. *)
Fixpoint tree_below (h : list Object3D) (depth : nat) (r : ref) : bool :=
  match depth with
  | O => false
  | S d =>
      match h !! r with
      | Some o => forallb (tree_below h d) (children o)
      | None => false
      end
  end.

(** The objects [traverse] walks without cycles: the fuel it gives itself
    covers the graph below [object]. *)
Definition acyclic_below (w : World) (object : ref) : bool :=
  tree_below (heap w) (S (length (heap w))) object.

(** [d] is [r] or below it. *)
Inductive descendant (h : list Object3D) : ref -> ref -> Prop :=
| descendant_self r : descendant h r r
| descendant_child r o c d :
    h !! r = Some o -> In c (children o) -> descendant h c d ->
    descendant h r d.

(** A store in the middle of a [setShadow] that started in [h0]: every
    object is as it was or has been visited. *)
Definition partly_shaded (cast receive : bool) (h0 hc : list Object3D) : Prop :=
  length hc = length h0
  /\ forall r o, h0 !! r = Some o ->
       hc !! r = Some o \/ hc !! r = Some (shaded cast receive o).

(** The objects [init] builds before the baseplate: the two lights, and the
    scene that holds them and the group, with its background set; [scene] is
    the index the scene gets. *)
Definition ambient_light : Object3D :=
  new_object (KAmbientLight 0xffffff (Num 0.5)).
Definition directional_light : Object3D :=
  with_castShadow true
    (with_position (mkVector3 (Num 50) (Num 100) (Num 50))
       (new_object (KDirectionalLight 0xffffff (Num 1)))).
Definition lit_scene (scene : ref) : Object3D :=
  with_background (Some 0x9ad0ec)
    (with_children [scene + 1; scene + 2; scene + 3]%nat (new_object KScene)).

(** ** Numbers: the loop test and the ceiling *)

Lemma Qlt_bool_iff (a b : Q) : Qlt_bool a b = true <-> (a < b)%Q.
Proof.
  unfold Qlt_bool. rewrite negb_true_iff, <- not_true_iff_false, Qle_bool_iff.
  split; [apply Qnot_le_lt | apply Qlt_not_le].
Qed.

Lemma Qlt_ceiling_iff (i : Z) (q : Q) : (inject_Z i < q)%Q <-> i < Qceiling q.
Proof.
  split; intros H.
  - rewrite Zlt_Qlt. eapply Qlt_le_trans; [exact H | apply Qle_ceiling].
  - eapply Qle_lt_trans; [| apply Qceiling_lt].
    rewrite <- Zle_Qle. lia.
Qed.

Lemma lt_of_nat_Num (i : nat) (q : Q) :
  (of_nat i <? Num q) = true <-> (i < Z.to_nat (Qceiling q))%nat.
Proof.
  unfold of_nat; simpl. rewrite Qlt_bool_iff, Qlt_ceiling_iff. lia.
Qed.

Lemma lt_of_nat_iterations (bound : number) (n i : nat) :
  iterations bound = Some n ->
  (of_nat i <? bound) = bool_decide (i < n)%nat.
Proof.
  intros Hn. destruct bound; simpl in Hn; try discriminate;
    injection Hn as <-; try reflexivity.
  case_bool_decide as Hi.
  - now apply lt_of_nat_Num.
  - apply not_true_is_false. now rewrite lt_of_nat_Num.
Qed.

(** ** Loops as iterations over lists *)

Lemma for_from_forEach (bound : number) (n : nat) (body : number -> M unit) :
  iterations bound = Some n ->
  forall fuel i, (i + fuel = n)%nat ->
    for_from fuel i bound body = forEach (of_nat <$> seq i fuel) body.
Proof.
  intros Hn. induction fuel as [|fuel IH]; intros i Hi.
  - cbn [for_from]. rewrite (lt_of_nat_iterations _ _ _ Hn).
    rewrite bool_decide_eq_false_2 by lia. reflexivity.
  - cbn [for_from]. rewrite (lt_of_nat_iterations _ _ _ Hn).
    rewrite bool_decide_eq_true_2 by lia.
    rewrite IH by lia. reflexivity.
Qed.

Lemma for_lt_forEach (bound : number) (n : nat) (body : number -> M unit) :
  iterations bound = Some n ->
  for_lt bound body = forEach (of_nat <$> seq 0 n) body.
Proof.
  intros Hn. unfold for_lt. rewrite Hn.
  now apply (for_from_forEach bound n).
Qed.

Lemma forEach_app {A} (l1 l2 : list A) (body : A -> M unit) (w : World) :
  forEach (l1 ++ l2) body w = (forEach l1 body ;;; forEach l2 body) w.
Proof.
  revert w. induction l1 as [|a l1 IH]; intros w; simpl.
  - reflexivity.
  - unfold bind in *. destruct (body a w); auto.
Qed.

Lemma forEach_fmap {A B} (f : A -> B) (l : list A) (body : B -> M unit) (w : World) :
  forEach (f <$> l) body w = forEach l (fun a => body (f a)) w.
Proof.
  revert w. induction l as [|a l IH]; intros w; simpl; [reflexivity|].
  unfold bind. destruct (body (f a) w); auto.
Qed.

Lemma forEach_list_prod {A B} (xs : list A) (zs : list B)
    (body : A -> B -> M unit) (w : World) :
  forEach xs (fun x => forEach zs (body x)) w
  = forEach (list_prod xs zs) (fun c => body c.1 c.2) w.
Proof.
  revert w. induction xs as [|x xs IH]; intros w; simpl; [reflexivity|].
  rewrite forEach_app. unfold bind.
  rewrite (forEach_fmap (fun z => (x, z))). simpl.
  destruct (forEach zs _ w); auto.
Qed.

Lemma forEach_ext {A} (l : list A) (f g : A -> M unit) (w : World) :
  (forall a w', f a w' = g a w') -> forEach l f w = forEach l g w.
Proof.
  intros Hfg. revert w. induction l as [|a l IH]; intros w; simpl; [reflexivity|].
  unfold bind. rewrite Hfg. destruct (g a w); auto.
Qed.

(** Two nested counting loops visit the cells of the grid in order.  The
    inner bound does not matter when the outer loop does not run. *)
Lemma nested_for_lt (boundX boundZ : number) (n m : nat)
    (body : number -> number -> M unit) (w : World) :
  iterations boundX = Some n ->
  n = O \/ iterations boundZ = Some m ->
  for_lt boundX (fun x => for_lt boundZ (fun z => body x z)) w
  = forEach (cells n m) (fun c => body (of_nat c.1) (of_nat c.2)) w.
Proof.
  intros Hn [-> | Hm]; rewrite (for_lt_forEach _ _ _ Hn); [reflexivity|].
  rewrite forEach_fmap. unfold cells.
  rewrite <- (forEach_list_prod _ _ (fun x z => body (of_nat x) (of_nat z))).
  apply forEach_ext. intros x w'.
  rewrite (for_lt_forEach _ _ _ Hm). apply forEach_fmap.
Qed.

(** They do not terminate when the outer bound is infinite, or the inner
    one is and the outer loop runs at all. *)
Lemma nested_for_lt_diverges (boundX boundZ : number)
    (body : number -> number -> M unit) (w : World) :
  iterations boundX = None
  \/ (iterations boundX <> Some O /\ iterations boundZ = None) ->
  for_lt boundX (fun x => for_lt boundZ (fun z => body x z)) w = Diverges.
Proof.
  intros [Hx | [Hx Hz]]; unfold for_lt at 1.
  - now rewrite Hx.
  - destruct (iterations boundX) as [[|n]|] eqn:E; [congruence| |reflexivity].
    cbn [for_from].
    rewrite (lt_of_nat_iterations _ _ _ E), bool_decide_eq_true_2 by lia.
    unfold bind, for_lt. now rewrite Hz.
Qed.

(** ** Store operations on a known store *)

Lemma modify_run (r : ref) (f : Object3D -> Object3D) (h : list Object3D)
    (p : list LoadRequest) (o : Object3D) :
  h !! r = Some o ->
  modify r f (mkWorld h p) = Returns tt (mkWorld (<[r := f o]> h) p).
Proof. intros Hr. unfold modify. simpl. rewrite Hr. reflexivity. Qed.

Lemma lookup_last (h : list Object3D) (o : Object3D) :
  (h ++ [o]) !! length h = Some o.
Proof. now apply list_lookup_middle. Qed.

Lemma insert_last (h : list Object3D) (o o' : Object3D) :
  <[length h := o']> (h ++ [o]) = h ++ [o'].
Proof. rewrite insert_app_r_alt by lia. now rewrite Nat.sub_diag. Qed.

(** ** The effect of the loop bodies *)

Section TileLoops.
Variables (tileSize yPosition offX offZ : number).

Lemma forEach_requests (bp : ref) (l : list (nat * nat)) (w : World) :
  forEach l (fun c =>
    loader_load asset_url
      (mkCallback ((of_nat c.1 * tileSize) - offX) yPosition
                  ((of_nat c.2 * tileSize) - offZ) bp)) w
  = Returns tt (mkWorld (heap w) (pending w ++ (tile_request tileSize yPosition offX offZ bp <$> l))).
Proof.
  revert w. induction l as [|c l IH]; intros [h p]; simpl.
  - rewrite app_nil_r. reflexivity.
  - unfold bind, loader_load at 1. simpl. rewrite IH. simpl.
    rewrite <- app_assoc. reflexivity.
Qed.

Lemma mesh_body_run (bp : ref) (c : nat * nat) (h : list Object3D)
    (p : list LoadRequest) (g : Object3D) :
  h !! bp = Some g ->
  (tile <- alloc (new_object
              (KMesh (BoxGeometry tileSize (Num 0.5) tileSize)
                     (MeshStandardMaterial 0x333333 (Num 0.8)))) ;;
    position_set tile ((of_nat c.1 * tileSize) - offX) yPosition
                      ((of_nat c.2 * tileSize) - offZ) ;;;
    modify tile (with_receiveShadow true) ;;;
    modify tile (with_castShadow false) ;;;
    add bp tile) (mkWorld h p)
  = Returns tt
      (mkWorld (<[bp := with_children (children g ++ [length h]) g]>
                  (h ++ [tile_mesh tileSize yPosition offX offZ c])) p).
Proof.
  intros Hg. unfold bind at 1. unfold alloc. cbn [heap pending].
  unfold bind at 1. unfold position_set.
  rewrite (modify_run _ _ _ _ _ (lookup_last _ _)), insert_last.
  unfold bind at 1.
  rewrite (modify_run _ _ _ _ _ (lookup_last _ _)), insert_last.
  unfold bind at 1.
  rewrite (modify_run _ _ _ _ _ (lookup_last _ _)), insert_last.
  unfold add.
  rewrite (modify_run _ _ _ _ _ (lookup_app_l_Some _ _ _ _ Hg)).
  reflexivity.
Qed.

Lemma forEach_meshes (bp : ref) (l : list (nat * nat)) :
  forall (h : list Object3D) (p : list LoadRequest) (g : Object3D),
  h !! bp = Some g ->
  forEach l (fun c =>
    tile <- alloc (new_object
              (KMesh (BoxGeometry tileSize (Num 0.5) tileSize)
                     (MeshStandardMaterial 0x333333 (Num 0.8)))) ;;
    position_set tile ((of_nat c.1 * tileSize) - offX) yPosition
                      ((of_nat c.2 * tileSize) - offZ) ;;;
    modify tile (with_receiveShadow true) ;;;
    modify tile (with_castShadow false) ;;;
    add bp tile) (mkWorld h p)
  = Returns tt
      (mkWorld
         (<[bp := with_children (children g ++ seq (length h) (length l)) g]>
            (h ++ (tile_mesh tileSize yPosition offX offZ <$> l))) p).
Proof.
  induction l as [|c l IH]; intros h p g Hg.
  - cbn [forEach length seq fmap list_fmap]. rewrite !app_nil_r.
    rewrite list_insert_id; [reflexivity|]. rewrite Hg. now destruct g.
  - assert (Hlt : (bp < length h)%nat) by (eapply lookup_lt_Some; eauto).
    cbn [forEach]. unfold bind at 1.
    rewrite (mesh_body_run bp c h p g Hg).
    erewrite IH.
    2:{ apply list_lookup_insert_eq. rewrite length_app. lia. }
    f_equal. f_equal.
    rewrite length_insert, length_app. cbn [length with_children children].
    rewrite Nat.add_1_r, <- !app_assoc. cbn [fmap list_fmap app seq].
    rewrite (insert_app_l h [_]) by assumption.
    rewrite <- app_assoc.
    rewrite (insert_app_l (<[bp:=_]> h)) by (rewrite length_insert; assumption).
    rewrite list_insert_insert_eq, (insert_app_l h) by assumption.
    reflexivity.
Qed.
End TileLoops.

Lemma createBaseplateWith_run (useTileAsset : bool) (w : World) (scene : ref)
    (s : Object3D) (width len : number) (yPosition tileSize : option number)
    (n m : nat) :
  let y := default (Num (-4)) yPosition in
  let ts := default (Num 4) tileSize in
  heap w !! scene = Some s ->
  iterations (tilesX width ts) = Some n ->
  n = O \/ iterations (tilesZ len ts) = Some m ->
  createBaseplateWith useTileAsset scene width len yPosition tileSize w
  = Returns (length (heap w))
      (built_world useTileAsset w scene s width len y ts n m).
Proof.
  intros y ts Hs Hn Hm. destruct w as [h p]. cbn [heap pending] in *.
  assert (Hlt : (scene < length h)%nat) by (eapply lookup_lt_Some; eauto).
  unfold createBaseplateWith, built_world. cbn zeta. cbn [heap pending].
  fold y ts.
  unfold bind at 1. unfold alloc at 1. cbn [heap pending].
  unfold bind at 1.
  rewrite (modify_run _ _ _ _ _ (lookup_last _ _)), insert_last.
  fold baseplate_group.
  unfold bind at 1.
  destruct useTileAsset.
  - rewrite (nested_for_lt _ _ n m) by assumption.
    fold asset_url. rewrite forEach_requests. cbn [heap pending].
    unfold bind, add.
    rewrite (modify_run _ _ _ _ _ (lookup_app_l_Some _ _ _ _ Hs)).
    reflexivity.
  - rewrite (nested_for_lt _ _ n m) by assumption.
    rewrite (forEach_meshes _ _ _ _ _ _ _ _ baseplate_group (lookup_last _ _)).
    unfold bind, add.
    rewrite (insert_app_l (h ++ [_])) by (rewrite length_app; simpl; lia).
    rewrite insert_last, <- app_assoc. cbn [app].
    rewrite (modify_run _ _ _ _ _ (lookup_app_l_Some _ _ _ _ Hs)).
    rewrite length_app, Nat.add_1_r. reflexivity.
Qed.

Lemma createBaseplateWith_diverges (useTileAsset : bool) (w : World)
    (scene : ref) (width len : number) (yPosition tileSize : option number) :
  let ts := default (Num 4) tileSize in
  iterations (tilesX width ts) = None
  \/ (iterations (tilesX width ts) <> Some O
      /\ iterations (tilesZ len ts) = None) ->
  createBaseplateWith useTileAsset scene width len yPosition tileSize w
  = Diverges.
Proof.
  intros ts H. destruct w as [h p].
  unfold createBaseplateWith. cbn zeta. fold ts.
  unfold bind at 1. unfold alloc at 1. cbn [heap pending].
  unfold bind at 1.
  rewrite (modify_run _ _ _ _ _ (lookup_last _ _)), insert_last.
  unfold bind at 1.
  destruct useTileAsset; now rewrite nested_for_lt_diverges.
Qed.

(** Either both loops have a trip count (or the outer one does not run), or
    the call does not terminate. *)
Lemma iterations_cases (boundX boundZ : number) :
  (exists n m, iterations boundX = Some n
               /\ (n = O \/ iterations boundZ = Some m))
  \/ (iterations boundX = None
      \/ (iterations boundX <> Some O /\ iterations boundZ = None)).
Proof.
  destruct (iterations boundX) as [[|n]|] eqn:EX.
  - left. exists O, O. auto.
  - destruct (iterations boundZ) as [m|] eqn:EZ.
    + left. exists (S n), m. auto.
    + right. right. split; [discriminate | reflexivity].
  - right. left. reflexivity.
Qed.

(** ** The placements of one call *)

Lemma omap_lookup_seq {A B} (f : A -> B) (l2 : list A) :
  forall l1 : list A,
  omap (fun t => f <$> (l1 ++ l2) !! t) (seq (length l1) (length l2)) = f <$> l2.
Proof.
  induction l2 as [|a l2 IH]; intros l1; [reflexivity|].
  cbn [length seq omap list_omap].
  rewrite list_lookup_middle by reflexivity. cbn [fmap option_fmap option_map list_fmap].
  f_equal.
  specialize (IH (l1 ++ [a])).
  rewrite length_app, Nat.add_1_r, <- app_assoc in IH. exact IH.
Qed.

Lemma placements_built (useTileAsset : bool) (w : World) (scene : ref)
    (s : Object3D) (width len y ts : number) (n m : nat) :
  heap w !! scene = Some s ->
  placements useTileAsset w
    (built_world useTileAsset w scene s width len y ts n m) (length (heap w))
  = tile_position ts y (offsetX (tilesX width ts) ts)
      (offsetZ (tilesZ len ts) ts) <$> cells n m.
Proof.
  intros Hs.
  assert (Hlt : (scene < length (heap w))%nat) by (eapply lookup_lt_Some; eauto).
  unfold placements, built_world. cbn zeta. destruct useTileAsset.
  - unfold requested. cbn [pending]. rewrite drop_app_length.
    rewrite <- list_fmap_compose. reflexivity.
  - unfold child_positions. cbn [heap].
    rewrite list_lookup_insert_ne by lia.
    rewrite list_lookup_middle by reflexivity. cbn [children with_children].
    rewrite insert_app_l by assumption.
    change (?a ++ ?b :: ?c) with (a ++ [b] ++ c). rewrite app_assoc.
    set (l1 := <[scene:=_]> (heap w) ++ [_]).
    replace (S (length (heap w))) with (length l1)
      by (subst l1; rewrite length_app, length_insert; simpl; lia).
    erewrite <- (length_fmap (tile_mesh _ _ _ _) (cells n m)).
    rewrite omap_lookup_seq, <- list_fmap_compose. reflexivity.
Qed.

Lemma length_cells (n m : nat) : length (cells n m) = (n * m)%nat.
Proof. unfold cells. now rewrite length_prod, !length_seq. Qed.

(** ** Finite inputs with a positive tile size *)

Lemma Qis_zero_pos (t : Q) : (0 < t)%Q -> Qis_zero t = false.
Proof.
  intros Ht. unfold Qis_zero. apply not_true_is_false. intros H.
  apply Qeq_bool_eq in H. rewrite H in Ht. now apply Qlt_irrefl in Ht.
Qed.

Lemma tilesX_Num (width tileSize : Q) :
  (0 < tileSize)%Q ->
  tilesX (Num width) (Num tileSize) = of_Z (spec_columns width tileSize).
Proof. intros Ht. unfold tilesX, div. now rewrite (Qis_zero_pos _ Ht). Qed.

Lemma tilesZ_Num (len tileSize : Q) :
  (0 < tileSize)%Q ->
  tilesZ (Num len) (Num tileSize) = of_Z (spec_rows len tileSize).
Proof. intros Ht. unfold tilesZ, div. now rewrite (Qis_zero_pos _ Ht). Qed.

Lemma iterations_of_Z (z : Z) : iterations (of_Z z) = Some (Z.to_nat z).
Proof. unfold of_Z. simpl. now rewrite Qceiling_Z. Qed.

Lemma offsetX_Num (count : Z) (tileSize : Q) :
  offsetX (of_Z count) (Num tileSize)
  = Num (inject_Z count * tileSize / 2 - tileSize / 2).
Proof. reflexivity. Qed.

Lemma offsetZ_Num (count : Z) (tileSize : Q) :
  offsetZ (of_Z count) (Num tileSize)
  = Num (inject_Z count * tileSize / 2 - tileSize / 2).
Proof. reflexivity. Qed.

(** A quotient of positive numbers has a ceiling of at least 1. *)
Lemma Qceiling_quotient_pos (a t : Q) :
  (0 < a)%Q -> (0 < t)%Q -> 1 <= Qceiling (a / t).
Proof.
  intros Ha Ht.
  assert (H : (inject_Z 0 < a / t)%Q).
  { apply Qlt_shift_div_l; [assumption|]. now rewrite Qmult_0_l. }
  apply Qlt_ceiling_iff in H. lia.
Qed.

Section Valid.
Variables (width len tileSize : Q).
Hypothesis (Hw : (0 < width)%Q) (Hl : (0 < len)%Q) (Ht : (0 < tileSize)%Q).
Variables (useTileAsset : bool) (w : World) (scene : ref).
Variable (plateHeight : option number).
Hypothesis (Hscene : is_Some (heap w !! scene)).

Let y : number := default (Num (-4)) plateHeight.

(** On valid input the call returns, and its placements are those of the
    specification's calculator. *)
Lemma createBaseplateWith_valid :
  exists w',
    createBaseplateWith useTileAsset scene (Num width) (Num len)
      plateHeight (Some (Num tileSize)) w
    = Returns (length (heap w)) w'
    /\ placements useTileAsset w w' (length (heap w))
       = spec_computeTilePlacements width len tileSize y.
Proof.
  destruct Hscene as [s Hs].
  exists (built_world useTileAsset w scene s (Num width) (Num len) y
            (Num tileSize) (Z.to_nat (spec_columns width tileSize))
            (Z.to_nat (spec_rows len tileSize))).
  split.
  - apply (createBaseplateWith_run _ _ _ s); [exact Hs | |];
      cbn [default from_option id].
    + rewrite tilesX_Num by assumption. apply iterations_of_Z.
    + right. rewrite tilesZ_Num by assumption. apply iterations_of_Z.
  - rewrite placements_built by exact Hs.
    rewrite tilesX_Num, tilesZ_Num by assumption. reflexivity.
Qed.
End Valid.

Lemma of_Z_to_nat (z : Z) : 0 <= z -> of_nat (Z.to_nat z) = of_Z z.
Proof. intros Hz. unfold of_nat, of_Z. now rewrite Z2Nat.id. Qed.

(** ** C1: one placement per grid cell *)



(** ** C4: the grid covers the requested rectangle *)

Lemma ceiling_covers (a t : Q) :
  (0 < t)%Q -> (a <= inject_Z (Qceiling (a / t)) * t)%Q.
Proof.
  intros Ht.
  assert (Hne : ~ (t == 0)%Q) by (intros H; rewrite H in Ht; now apply Qlt_irrefl in Ht).
  apply Qle_trans with (a / t * t)%Q.
  - apply Qle_lteq. right. field. exact Hne.
  - apply Qmult_le_compat_r; [apply Qle_ceiling | now apply Qlt_le_weak].
Qed.



(** ** C7: the placements depend on the four inputs only *)

(** C7. Two calls with the same width, length, plate height and tile size,
    in any two worlds and on any two scenes, behave alike: either neither
    terminates, or both return and their sequences of placements are equal,
    order and coordinates included. *)
Theorem createBaseplate_deterministic (useTileAsset : bool) (w1 w2 : World)
    (scene1 scene2 : ref) (width len : number)
    (plateHeight tileSize : option number) :
  is_Some (heap w1 !! scene1) -> is_Some (heap w2 !! scene2) ->
  (createBaseplateWith useTileAsset scene1 width len plateHeight tileSize w1
     = Diverges
   /\ createBaseplateWith useTileAsset scene2 width len plateHeight tileSize w2
     = Diverges)
  \/ (exists (bp1 bp2 : ref) (w1' w2' : World),
        createBaseplateWith useTileAsset scene1 width len plateHeight tileSize w1
          = Returns bp1 w1'
        /\ createBaseplateWith useTileAsset scene2 width len plateHeight tileSize w2
          = Returns bp2 w2'
        /\ placements useTileAsset w1 w1' bp1 = placements useTileAsset w2 w2' bp2).
Proof.
  intros [s1 Hs1] [s2 Hs2].
  destruct (iterations_cases (tilesX width (default (Num 4) tileSize))
              (tilesZ len (default (Num 4) tileSize)))
    as [(n & m & Hn & Hm) | Hdiv].
  - right. do 4 eexists. split; [|split].
    + apply (createBaseplateWith_run _ _ _ s1 _ _ _ _ n m); eassumption.
    + apply (createBaseplateWith_run _ _ _ s2 _ _ _ _ n m); eassumption.
    + rewrite !placements_built by eassumption. reflexivity.
  - left. split; now apply createBaseplateWith_diverges.
Qed.

(** The second call runs in the world the first one left. *)
Lemma createBaseplate_deterministic_witness :
  (createBaseplateWith true 0%nat (Num 9) (Num 7) None None test_scene
     = Diverges
   /\ createBaseplateWith true 0%nat (Num 9) (Num 7) None None after_first_call
     = Diverges)
  \/ (exists (bp1 bp2 : ref) (w1' w2' : World),
        createBaseplateWith true 0%nat (Num 9) (Num 7) None None test_scene
          = Returns bp1 w1'
        /\ createBaseplateWith true 0%nat (Num 9) (Num 7) None None after_first_call
          = Returns bp2 w2'
        /\ placements true test_scene w1' bp1
           = placements true after_first_call w2' bp2).
Proof.
  apply (createBaseplate_deterministic true test_scene after_first_call
           0%nat 0%nat); eexists; reflexivity.
Defined.

(** ** C10: the two modes place the tiles alike *)



(** ** C3: the plate of 100 by 100 *)

(** C3. For width 100, length 100 and tile size 4 (the default), [tilesX] and
    [tilesZ] are 25, there are 625 placements, and the placement of cell
    (i, j), for i and j from 0 to 24, has x = -48 + 4 i and z = -48 + 4 j:
    from -48 to 48 in steps of 4, in both modes. *)
Theorem plate_100_by_100 (useTileAsset : bool) :
  tilesX (Num 100) (Num 4) = Num 25
  /\ tilesZ (Num 100) (Num 4) = Num 25
  /\ exists (bp : ref) (w' : World),
       createBaseplateWith useTileAsset 0%nat (Num 100) (Num 100)
         (Some (Num (-4))) None test_scene = Returns bp w'
       /\ length (placements useTileAsset test_scene w' bp) = 625%nat
       /\ canonical_position <$> placements useTileAsset test_scene w' bp
          = (fun c => mkVector3 (of_Z (-48 + 4 * Z.of_nat c.1)) (Num (-4))
                                (of_Z (-48 + 4 * Z.of_nat c.2)))
              <$> cells 25 25
       /\ canonical <$> minimum (vx <$> placements useTileAsset test_scene w' bp)
          = Some (Num (-48))
       /\ canonical <$> maximum (vx <$> placements useTileAsset test_scene w' bp)
          = Some (Num 48)
       /\ canonical <$> minimum (vz <$> placements useTileAsset test_scene w' bp)
          = Some (Num (-48))
       /\ canonical <$> maximum (vz <$> placements useTileAsset test_scene w' bp)
          = Some (Num 48).
Proof.
  split; [reflexivity|]. split; [reflexivity|].
  destruct useTileAsset; do 2 eexists.
  - split; [vm_compute; reflexivity|]. repeat split; vm_compute; reflexivity.
  - split; [vm_compute; reflexivity|]. repeat split; vm_compute; reflexivity.
Qed.

(** ** C5: a plate smaller than one tile *)

Lemma Qceiling_fraction (a t : Q) :
  (0 < a)%Q -> (a < t)%Q -> Qceiling (a / t) = 1.
Proof.
  intros Ha Hat.
  assert (Ht : (0 < t)%Q) by (eapply Qlt_trans; eassumption).
  pose proof (Qceiling_quotient_pos _ _ Ha Ht) as Hge.
  assert (H1 : (a / t < inject_Z 1)%Q).
  { apply Qlt_shift_div_r; [assumption|]. now rewrite Qmult_1_l. }
  pose proof (Qlt_trans _ _ _ (Qceiling_lt (a / t)) H1) as H.
  rewrite <- Zlt_Qlt in H. lia.
Qed.

Lemma spec_coordinate_single (tileSize : Q) :
  (spec_coordinate 1 tileSize 0 == 0)%Q.
Proof. unfold spec_coordinate. simpl. field. Qed.



(** ** C2: the grid is centred on the origin *)

Section Extremum.
Variable better : number -> number -> bool.
Variable R : Q -> Q -> Prop.
Hypothesis R_trans : forall a b c, R a b -> R b c -> R a c.
Hypothesis R_refl : forall a, R a a.
Hypothesis better_true : forall a b, better (Num a) (Num b) = true -> R a b.
Hypothesis better_false : forall a b, better (Num a) (Num b) = false -> R b a.

Lemma foldl_better_Num (qs : list Q) :
  forall a : Q, exists r : Q,
    foldl (fun best b => if better best b then best else b) (Num a) (Num <$> qs)
    = Num r
    /\ In r (a :: qs) /\ R r a /\ (forall q, In q qs -> R r q).
Proof.
  induction qs as [|b qs IH]; intros a.
  - exists a. simpl. split; [reflexivity|]. split; [now left|].
    split; [apply R_refl | intros q []].
  - cbn [fmap list_fmap foldl].
    destruct (better (Num a) (Num b)) eqn:E.
    + destruct (IH a) as (r & Hr & Hin & Hra & Hall). exists r.
      split; [exact Hr|]. split; [|split; [exact Hra|]].
      * destruct Hin as [<- | Hin]; [now left | right; now right].
      * intros q [<- | Hq]; [|now apply Hall].
        eapply R_trans; [exact Hra | now apply better_true].
    + destruct (IH b) as (r & Hr & Hin & Hrb & Hall). exists r.
      split; [exact Hr|]. split; [now right|]. split.
      * eapply R_trans; [exact Hrb | now apply better_false].
      * intros q [<- | Hq]; [exact Hrb | now apply Hall].
Qed.

Lemma extremum_Num (qs : list Q) :
  qs <> [] ->
  exists r : Q, extremum better (Num <$> qs) = Some (Num r)
                /\ In r qs /\ (forall q, In q qs -> R r q).
Proof.
  destruct qs as [|a qs]; [congruence|]. intros _.
  destruct (foldl_better_Num qs a) as (r & Hr & Hin & Hra & Hall).
  exists r. cbn [fmap list_fmap extremum]. rewrite Hr.
  split; [reflexivity|]. split; [exact Hin|].
  intros q [<- | Hq]; [exact Hra | now apply Hall].
Qed.
End Extremum.

Lemma minimum_Num (qs : list Q) :
  qs <> [] ->
  exists r : Q, minimum (Num <$> qs) = Some (Num r)
                /\ In r qs /\ (forall q, In q qs -> (r <= q)%Q).
Proof.
  apply (extremum_Num _ Qle Qle_trans Qle_refl); intros a b H; simpl in H.
  - apply Qlt_le_weak. now apply Qlt_bool_iff.
  - apply Qnot_lt_le. intros Hlt. apply Qlt_bool_iff in Hlt. congruence.
Qed.

Lemma maximum_Num (qs : list Q) :
  qs <> [] ->
  exists r : Q, maximum (Num <$> qs) = Some (Num r)
                /\ In r qs /\ (forall q, In q qs -> (q <= r)%Q).
Proof.
  apply (extremum_Num _ (fun a b => (b <= a)%Q)).
  - intros a b c Hab Hbc. eapply Qle_trans; eassumption.
  - apply Qle_refl.
  - intros a b H; simpl in H. apply Qlt_le_weak. now apply Qlt_bool_iff.
  - intros a b H; simpl in H.
    apply Qnot_lt_le. intros Hlt. apply Qlt_bool_iff in Hlt. congruence.
Qed.

Lemma spec_coordinate_mono (count : Z) (tileSize : Q) (i j : nat) :
  (0 < tileSize)%Q -> (i <= j)%nat ->
  (spec_coordinate count tileSize i <= spec_coordinate count tileSize j)%Q.
Proof.
  intros Ht Hij. unfold spec_coordinate, Qminus.
  apply Qplus_le_compat; [|apply Qle_refl].
  apply Qmult_le_compat_r; [|now apply Qlt_le_weak].
  rewrite <- Zle_Qle. lia.
Qed.

Lemma spec_coordinate_opposite (n : nat) (tileSize : Q) :
  (1 <= n)%nat ->
  (spec_coordinate (Z.of_nat n) tileSize 0
   == - spec_coordinate (Z.of_nat n) tileSize (n - 1))%Q.
Proof.
  intros Hn. unfold spec_coordinate.
  replace (Z.of_nat (n - 1)) with (Z.of_nat n + -1) by lia.
  rewrite inject_Z_plus. change (inject_Z (Z.of_nat 0)) with 0%Q.
  change (inject_Z (-1)) with (-1 # 1)%Q. field.
Qed.

(** The least and the greatest coordinate over indices that include 0 and
    [n - 1] and stay below [n]. *)
Lemma extrema_opposite (n : nat) (tileSize : Q) (idx : list nat) :
  (0 < tileSize)%Q -> (1 <= n)%nat ->
  In O idx -> In (n - 1)%nat idx -> (forall i, In i idx -> (i < n)%nat) ->
  exists lo hi : Q,
    minimum (Num <$> (spec_coordinate (Z.of_nat n) tileSize <$> idx)) = Some (Num lo)
    /\ maximum (Num <$> (spec_coordinate (Z.of_nat n) tileSize <$> idx)) = Some (Num hi)
    /\ (Num lo === neg (Num hi)) = true.
Proof.
  intros Ht Hn H0 Hlast Hbound.
  set (f := spec_coordinate (Z.of_nat n) tileSize).
  assert (Hne : f <$> idx <> []) by (destruct idx; [destruct H0 | discriminate]).
  destruct (minimum_Num _ Hne) as (lo & Hmin & Hlo_in & Hlo).
  destruct (maximum_Num _ Hne) as (hi & Hmax & Hhi_in & Hhi).
  exists lo, hi. split; [exact Hmin|]. split; [exact Hmax|].
  apply in_map_iff in Hlo_in as (i & <- & Hi).
  apply in_map_iff in Hhi_in as (j & <- & Hj).
  assert (Elo : (f i == f O)%Q).
  { apply Qle_antisym.
    - apply Hlo, in_map_iff. now exists O.
    - apply spec_coordinate_mono; [assumption | lia]. }
  assert (Ehi : (f j == f (n - 1)%nat)%Q).
  { apply Qle_antisym.
    - apply spec_coordinate_mono; [assumption|]. specialize (Hbound j Hj). lia.
    - apply Hhi, in_map_iff. now exists (n - 1)%nat. }
  simpl. apply Qeq_bool_iff. rewrite Elo, Ehi.
  now apply spec_coordinate_opposite.
Qed.

Lemma cells_columns (n m : nat) :
  (1 <= n)%nat -> (1 <= m)%nat ->
  In O (fst <$> cells n m) /\ In (n - 1)%nat (fst <$> cells n m)
  /\ (forall i, In i (fst <$> cells n m) -> (i < n)%nat).
Proof.
  intros Hn Hm. unfold cells. repeat split.
  - apply in_map_iff. exists (O, O). split; [reflexivity|].
    apply in_prod; apply in_seq; lia.
  - apply in_map_iff. exists ((n - 1)%nat, O). split; [reflexivity|].
    apply in_prod; apply in_seq; lia.
  - intros i Hi. apply in_map_iff in Hi as ([a b] & <- & Hab).
    apply in_prod_iff in Hab as [Ha _]. apply in_seq in Ha. simpl. lia.
Qed.

Lemma cells_rows (n m : nat) :
  (1 <= n)%nat -> (1 <= m)%nat ->
  In O (snd <$> cells n m) /\ In (m - 1)%nat (snd <$> cells n m)
  /\ (forall i, In i (snd <$> cells n m) -> (i < m)%nat).
Proof.
  intros Hn Hm. unfold cells. repeat split.
  - apply in_map_iff. exists (O, O). split; [reflexivity|].
    apply in_prod; apply in_seq; lia.
  - apply in_map_iff. exists (O, (m - 1)%nat). split; [reflexivity|].
    apply in_prod; apply in_seq; lia.
  - intros i Hi. apply in_map_iff in Hi as ([a b] & <- & Hab).
    apply in_prod_iff in Hab as [_ Hb]. apply in_seq in Hb. simpl. lia.
Qed.

Lemma spec_coordinate_mirror (n i : nat) (tileSize : Q) :
  (i < n)%nat ->
  (spec_coordinate (Z.of_nat n) tileSize (n - 1 - i)
   == - spec_coordinate (Z.of_nat n) tileSize i)%Q.
Proof.
  intros Hi. unfold spec_coordinate.
  replace (Z.of_nat (n - 1 - i)) with (Z.of_nat n + (-1 + - Z.of_nat i)) by lia.
  rewrite !inject_Z_plus, inject_Z_opp.
  change (inject_Z (-1)) with (-1 # 1)%Q. field.
Qed.

(** The cell opposite to a cell of the grid is in the grid. *)
Lemma cells_mirror (n m : nat) (c : nat * nat) :
  In c (cells n m) ->
  (c.1 < n)%nat /\ (c.2 < m)%nat
  /\ In ((n - 1 - c.1)%nat, (m - 1 - c.2)%nat) (cells n m).
Proof.
  destruct c as [a b]. unfold cells. intros H.
  apply in_prod_iff in H as [Ha Hb]. apply in_seq in Ha, Hb. simpl.
  split; [lia|]. split; [lia|]. apply in_prod; apply in_seq; lia.
Qed.

(** The placements of the specification's calculator come in opposite
    pairs. *)
Lemma spec_placements_mirror (width len tileSize : Q) (y : number) (p : Vector3) :
  0 <= spec_columns width tileSize -> 0 <= spec_rows len tileSize ->
  In p (spec_computeTilePlacements width len tileSize y) ->
  exists q, In q (spec_computeTilePlacements width len tileSize y)
            /\ (vx q === neg (vx p)) = true /\ (vz q === neg (vz p)) = true.
Proof.
  unfold spec_computeTilePlacements. intros Hc Hr Hp.
  apply in_map_iff in Hp as (c & <- & Hcell).
  apply cells_mirror in Hcell as (Hc1 & Hc2 & Hmir).
  eexists. split; [apply in_map_iff; eexists; split; [reflexivity | exact Hmir]|].
  cbn [vx vz fst snd neg num_eqb].
  rewrite <- (Z2Nat.id _ Hc) at 1 3. rewrite <- (Z2Nat.id _ Hr) at 1 3.
  split; apply Qeq_bool_iff, spec_coordinate_mirror; assumption.
Qed.

Lemma spec_placements_x (width len tileSize : Q) (y : number) :
  vx <$> spec_computeTilePlacements width len tileSize y
  = Num <$> (spec_coordinate (spec_columns width tileSize) tileSize
               <$> (fst <$> cells (Z.to_nat (spec_columns width tileSize))
                                  (Z.to_nat (spec_rows len tileSize)))).
Proof.
  unfold spec_computeTilePlacements. rewrite <- !list_fmap_compose. reflexivity.
Qed.

Lemma spec_placements_z (width len tileSize : Q) (y : number) :
  vz <$> spec_computeTilePlacements width len tileSize y
  = Num <$> (spec_coordinate (spec_rows len tileSize) tileSize
               <$> (snd <$> cells (Z.to_nat (spec_columns width tileSize))
                                  (Z.to_nat (spec_rows len tileSize)))).
Proof.
  unfold spec_computeTilePlacements. rewrite <- !list_fmap_compose. reflexivity.
Qed.



(** ** C6: every tile at the plate height *)

Lemma keeps_positions_ret {A} (a : A) : keeps_positions (ret a).
Proof. intros w. exists w. split; reflexivity. Qed.

Lemma keeps_positions_throw {A} (e : string) : keeps_positions (@throw A e).
Proof. intros w. exists w. split; reflexivity. Qed.

Lemma keeps_positions_bind {A B} (m : M A) (k : A -> M B) :
  keeps_positions m -> (forall a, keeps_positions (k a)) ->
  keeps_positions (bind m k).
Proof.
  intros Hm Hk w. unfold bind.
  destruct (Hm w) as (w1 & Hw1 & E1).
  destruct (m w) as [a w1' | e w1' |]; simpl in Hw1; [| |discriminate];
    injection Hw1 as ->.
  - destruct (Hk a w1) as (w2 & Hw2 & E2). exists w2.
    split; [exact Hw2 | now rewrite E2].
  - exists w1. split; [reflexivity | exact E1].
Qed.

Lemma keeps_positions_get (r : ref) : keeps_positions (get r).
Proof.
  intros w. exists w. unfold get. destruct (heap w !! r); split; reflexivity.
Qed.

Lemma keeps_positions_modify (r : ref) (f : Object3D -> Object3D) :
  (forall o, position (f o) = position o) -> keeps_positions (modify r f).
Proof.
  intros Hf w. unfold modify. destruct (heap w !! r) as [o|] eqn:E.
  - eexists. split; [reflexivity|]. cbn [heap].
    rewrite list_fmap_insert. apply list_insert_id.
    rewrite list_lookup_fmap, E. simpl. now rewrite Hf.
  - exists w. split; reflexivity.
Qed.

Lemma keeps_positions_forEach {A} (l : list A) (body : A -> M unit) :
  (forall a, keeps_positions (body a)) -> keeps_positions (forEach l body).
Proof.
  intros Hb. induction l as [|a l IH]; simpl.
  - apply keeps_positions_ret.
  - apply keeps_positions_bind; [apply Hb | intros _; exact IH].
Qed.

Lemma keeps_positions_traverse_fuel (callback : ref -> M unit) (fuel : nat) :
  (forall r, keeps_positions (callback r)) ->
  forall object, keeps_positions (traverse_fuel fuel object callback).
Proof.
  intros Hcb. induction fuel as [|fuel IH]; intros object; simpl.
  - apply keeps_positions_throw.
  - apply keeps_positions_bind; [apply Hcb | intros _].
    apply keeps_positions_bind; [apply keeps_positions_get | intros o].
    apply keeps_positions_forEach. intros child. apply IH.
Qed.

Lemma keeps_positions_setShadow (object : ref) (cast receive : option bool) :
  keeps_positions (setShadow object cast receive).
Proof.
  intros w. unfold setShadow, traverse.
  apply keeps_positions_traverse_fuel. intros r.
  apply keeps_positions_bind; [apply keeps_positions_get | intros c].
  destruct (isMesh c); [|apply keeps_positions_ret].
  apply keeps_positions_bind; [|intros _];
    now apply keeps_positions_modify.
Qed.

Lemma keeps_positions_add (parent child : ref) : keeps_positions (add parent child).
Proof. now apply keeps_positions_modify. Qed.

(** Whatever the asset, and whether or not the rest of the callback
    completes, the callback leaves the tile at the position it captured. *)
Lemma baseTileLoaded_position (cb : Callback) (gltf : GLTF) (w : World) :
  is_Some (heap w !! gltf_scene gltf) ->
  exists w', world_after (baseTileLoaded cb gltf w) = Some w'
             /\ position <$> heap w' !! gltf_scene gltf
                = Some (mkVector3 (posX cb) (yPosition cb) (posZ cb)).
Proof.
  intros [o Ho]. destruct w as [h p]. cbn [heap] in Ho.
  unfold baseTileLoaded. cbn zeta. unfold bind at 1, position_set.
  rewrite (modify_run _ _ _ _ _ Ho).
  destruct (keeps_positions_bind
              (setShadow (gltf_scene gltf) (Some false) (Some true))
              (fun _ => add (baseplate cb) (gltf_scene gltf))
              (keeps_positions_setShadow _ _ _)
              (fun _ => keeps_positions_add _ _)
              (mkWorld (<[gltf_scene gltf := with_position
                            (mkVector3 (posX cb) (yPosition cb) (posZ cb)) o]> h) p))
    as (w' & Hw' & E).
  exists w'. split; [exact Hw'|].
  rewrite <- list_lookup_fmap, E. cbn [heap].
  rewrite list_lookup_fmap, list_lookup_insert_eq by (eapply lookup_lt_Some; eauto).
  reflexivity.
Qed.

(** On a loaded asset that is a tree the callback returns: the tile is
    placed, its mesh receives shadows and casts none, and the group gets the
    tile as a child. *)
Example baseTileLoaded_runs :
  baseTileLoaded (mkCallback (Num 2) (Num (-4)) (Num 6) 1%nat) (mkGLTF 2%nat)
    asset_world
  = Returns tt
      (mkWorld [with_children [1%nat] (new_object KScene);
                with_children [2%nat] baseplate_group;
                with_position (mkVector3 (Num 2) (Num (-4)) (Num 6))
                  (with_children [3%nat] (new_object KGroup));
                with_receiveShadow true
                  (new_object (KMesh AssetGeometry AssetMaterial))]
               []).
Proof. reflexivity. Qed.



(** ** C8: what the call changes and what it leaves *)


Lemma cells_no_columns (m : nat) : cells O m = [].
Proof. reflexivity. Qed.

Lemma placements_layout (useTileAsset : bool) (w : World) (scene : ref)
    (s : Object3D) (width len y ts : number) (n m : nat) :
  heap w !! scene = Some s ->
  iterations (tilesX width ts) = Some n ->
  n = O \/ iterations (tilesZ len ts) = Some m ->
  placements useTileAsset w
    (built_world useTileAsset w scene s width len y ts n m) (length (heap w))
  = layout width len y ts.
Proof.
  intros Hs Hn Hm. rewrite placements_built by exact Hs.
  unfold layout. rewrite Hn. cbn [default from_option id].
  destruct Hm as [-> | ->]; reflexivity.
Qed.



(** ** C9: dimensions that are not positive numbers *)


Lemma parse_digits_acc (radix : nat) (s : string) (z : Z) :
  exists z', parse_digits radix s (Some z) = Some z'.
Proof.
  revert z. induction s as [|c s IH]; intros z; simpl; [now exists z|].
  destruct (digit_value radix c); [apply IH | now exists z].
Qed.

(** [parseInt] gives NaN or an integer. *)
Lemma parseInt_cases (s : string) :
  parseInt s = NaN \/ exists z, parseInt s = of_Z z.
Proof.
  unfold parseInt.
  destruct (match trim_start s with
            | String "-" s' => (-1, s')
            | String "+" s' => (1, s')
            | _ => (1, trim_start s)
            end) as [sign s1].
  destruct (match s1 with
            | String "0" (String "x" s') | String "0" (String "X" s') => (16%nat, s')
            | _ => (10%nat, s1)
            end) as [radix s2].
  destruct (parse_digits radix s2 None) as [n|]; [right; eauto | now left].
Qed.

Lemma Qceiling_quotient_nonpos (a t : Q) :
  (a <= 0)%Q -> (0 < t)%Q -> Qceiling (a / t) <= 0.
Proof.
  intros Ha Ht. change 0 with (Qceiling 0). apply Qceiling_resp_le.
  apply Qle_shift_div_r; [assumption|]. now rewrite Qmult_0_l.
Qed.

Lemma iterations_tiles_parseInt (s : string) :
  exists n, iterations (ceil (parseInt s / Num 4)) = Some n
            /\ (invalid_dimension (parseInt s) -> n = O).
Proof.
  destruct (parseInt_cases s) as [-> | [z ->]].
  - exists O. split; [reflexivity | auto].
  - eexists. split; [reflexivity|].
    intros [H | (q & [= <-] & Hq)]; [discriminate|].
    rewrite Qceiling_Z.
    pose proof (Qceiling_quotient_nonpos _ 4 Hq eq_refl). lia.
Qed.

Lemma modify_app_run (r i : ref) (f : Object3D -> Object3D)
    (h l : list Object3D) (p : list LoadRequest) (o : Object3D) :
  r = (length h + i)%nat -> l !! i = Some o ->
  modify r f (mkWorld (h ++ l) p) = Returns tt (mkWorld (h ++ <[i := f o]> l) p).
Proof.
  intros -> Hi. rewrite <- insert_app_r. apply modify_run.
  rewrite lookup_app_r by lia. now replace (length h + i - length h)%nat with i by lia.
Qed.

Lemma cells_no_rows (n : nat) : cells n O = [].
Proof. unfold cells. induction (seq 0 n); [reflexivity | assumption]. Qed.



(** ** More of scene.js: [setShadow] and the load callback *)

Section Keeps.
Variable R : World -> World -> Prop.
Hypothesis R_refl : forall w, R w w.
Hypothesis R_trans : forall w1 w2 w3, R w1 w2 -> R w2 w3 -> R w1 w3.

Lemma keeps_ret {A} (a : A) : keeps R (ret a).
Proof. intros w. exists w. split; [reflexivity | apply R_refl]. Qed.

Lemma keeps_throw {A} (e : string) : keeps R (@throw A e).
Proof. intros w. exists w. split; [reflexivity | apply R_refl]. Qed.

Lemma keeps_get (r : ref) : keeps R (get r).
Proof.
  intros w. exists w. unfold get.
  destruct (heap w !! r); (split; [reflexivity | apply R_refl]).
Qed.

Lemma keeps_bind {A B} (m : M A) (k : A -> M B) :
  keeps R m -> (forall a, keeps R (k a)) -> keeps R (bind m k).
Proof.
  intros Hm Hk w. unfold bind.
  destruct (Hm w) as (w1 & Hw1 & R1).
  destruct (m w) as [a w1' | e w1' |]; simpl in Hw1; [| |discriminate];
    injection Hw1 as ->.
  - destruct (Hk a w1) as (w2 & Hw2 & R2). exists w2.
    split; [exact Hw2 | eapply R_trans; eassumption].
  - exists w1. split; [reflexivity | exact R1].
Qed.

Lemma keeps_forEach {A} (l : list A) (body : A -> M unit) :
  (forall a, keeps R (body a)) -> keeps R (forEach l body).
Proof.
  intros Hb. induction l as [|a l IH]; simpl.
  - apply keeps_ret.
  - apply keeps_bind; [apply Hb | intros _; exact IH].
Qed.

Lemma keeps_traverse_fuel (callback : ref -> M unit) (fuel : nat) :
  (forall r, keeps R (callback r)) ->
  forall object, keeps R (traverse_fuel fuel object callback).
Proof.
  intros Hcb. induction fuel as [|fuel IH]; intros object; simpl.
  - apply keeps_throw.
  - apply keeps_bind; [apply Hcb | intros _].
    apply keeps_bind; [apply keeps_get | intros o].
    apply keeps_forEach. intros child. apply IH.
Qed.

Lemma keeps_traverse (callback : ref -> M unit) (object : ref) :
  (forall r, keeps R (callback r)) -> keeps R (traverse object callback).
Proof. intros Hcb w. unfold traverse. now apply keeps_traverse_fuel. Qed.
End Keeps.

Lemma same_except_refl (moved grown : bool) (o : Object3D) :
  same_except moved grown o o.
Proof. unfold same_except. tauto. Qed.

Lemma same_except_trans (moved grown : bool) (o1 o2 o3 : Object3D) :
  same_except moved grown o1 o2 -> same_except moved grown o2 o3 ->
  same_except moved grown o1 o3.
Proof.
  intros (K1 & N1 & B1 & P1 & C1 & S1) (K2 & N2 & B2 & P2 & C2 & S2).
  assert (M : isMesh o2 = isMesh o1) by (unfold isMesh; now rewrite K1).
  unfold same_except.
  split; [congruence|]. split; [congruence|]. split; [congruence|].
  split; [intros E; rewrite P2, P1; auto|].
  split; [intros E; rewrite C2, C1; auto|].
  intros E. destruct (S1 E) as [Sc Sr].
  destruct (S2 ltac:(congruence)) as [Sc' Sr']. split; congruence.
Qed.

Lemma same_except_weaken (moved grown : bool) (o o' : Object3D) :
  same_except false false o o' -> same_except moved grown o o'.
Proof.
  intros (K & N & B & P & C & S). unfold same_except.
  repeat split; auto; now apply S.
Qed.

Lemma frame_refl (moved grown : ref -> bool) (w : World) : frame moved grown w w.
Proof.
  repeat split. intros r o Hr. exists o. split; [exact Hr | apply same_except_refl].
Qed.

Lemma frame_trans (moved grown : ref -> bool) (w1 w2 w3 : World) :
  frame moved grown w1 w2 -> frame moved grown w2 w3 -> frame moved grown w1 w3.
Proof.
  intros (P1 & L1 & H1) (P2 & L2 & H2). split; [congruence|]. split; [congruence|].
  intros r o Hr. destruct (H1 r o Hr) as (o2 & Hr2 & S1).
  destruct (H2 r o2 Hr2) as (o3 & Hr3 & S2).
  exists o3. split; [exact Hr3 | eapply same_except_trans; eassumption].
Qed.

Lemma frame_weaken (moved grown : ref -> bool) (w w' : World) :
  frame (fun _ => false) (fun _ => false) w w' -> frame moved grown w w'.
Proof.
  intros (P & L & H). split; [exact P|]. split; [exact L|].
  intros r o Hr. destruct (H r o Hr) as (o' & Hr' & S).
  exists o'. split; [exact Hr' | now apply same_except_weaken].
Qed.

(** Replacing one object by an allowed variant stays in the frame. *)
Lemma frame_insert (moved grown : ref -> bool) (h : list Object3D)
    (p : list LoadRequest) (r : ref) (o o' : Object3D) :
  h !! r = Some o -> same_except (moved r) (grown r) o o' ->
  frame moved grown (mkWorld h p) (mkWorld (<[r := o']> h) p).
Proof.
  intros Hr S. split; [reflexivity|]. split; [apply length_insert|].
  cbn [heap]. intros r2 o2 Hr2. destruct (decide (r = r2)) as [<- | Hne].
  - exists o'. rewrite list_lookup_insert_eq by (eapply lookup_lt_Some; eauto).
    split; [reflexivity | congruence].
  - exists o2. rewrite list_lookup_insert_ne by exact Hne.
    split; [exact Hr2 | apply same_except_refl].
Qed.

Lemma keeps_frame_modify (moved grown : ref -> bool) (r : ref)
    (f : Object3D -> Object3D) :
  (forall o, same_except (moved r) (grown r) o (f o)) ->
  keeps (frame moved grown) (modify r f).
Proof.
  intros Hf [h p]. unfold modify. cbn [heap pending].
  destruct (h !! r) as [o|] eqn:E.
  - eexists. split; [reflexivity|]. apply (frame_insert _ _ _ _ _ o); auto.
  - eexists. split; [reflexivity | apply frame_refl].
Qed.

(** One visit of [setShadow]: the object visited gets its flags if it is a
    mesh. *)
Lemma setShadow_visit_run (cast receive : bool) (child : ref)
    (h : list Object3D) (p : list LoadRequest) (o : Object3D) :
  h !! child = Some o ->
  (c <- get child ;;
   if isMesh c then
     modify child (with_castShadow cast) ;;;
     modify child (with_receiveShadow receive)
   else ret tt) (mkWorld h p)
  = Returns tt (mkWorld (<[child := shaded cast receive o]> h) p).
Proof.
  intros Ho. unfold bind at 1, get. cbn [heap]. rewrite Ho.
  unfold shaded. destruct (isMesh o).
  - unfold bind. rewrite (modify_run _ _ _ _ _ Ho).
    erewrite modify_run
      by (apply list_lookup_insert_eq; eapply lookup_lt_Some; eauto).
    now rewrite list_insert_insert_eq.
  - unfold ret. now rewrite list_insert_id.
Qed.

Lemma same_except_shaded (cast receive : bool) (o : Object3D) :
  same_except false false o (shaded cast receive o).
Proof.
  unfold same_except, shaded. destruct (isMesh o) eqn:E; simpl;
    repeat split; auto; discriminate.
Qed.

Lemma keeps_frame_setShadow (object : ref) (cast receive : option bool) :
  keeps (frame (fun _ => false) (fun _ => false)) (setShadow object cast receive).
Proof.
  unfold setShadow. cbn zeta.
  apply keeps_traverse; [apply frame_refl | apply frame_trans |].
  intros r [h p]. destruct (h !! r) as [o|] eqn:E.
  - rewrite (setShadow_visit_run _ _ _ _ _ _ E). eexists.
    split; [reflexivity|].
    apply (frame_insert _ _ _ _ _ o); [exact E | apply same_except_shaded].
  - unfold bind, get. cbn [heap]. rewrite E. eexists.
    split; [reflexivity | apply frame_refl].
Qed.

(** X1. [setShadow], on any object of any world and with any flags, returns
    or throws; it leaves the pending requests and the number of objects as
    they were, and of every object the kind, the name, the background, the
    position and the children; the shadow flags of an object that is no mesh
    stay as well. *)
Theorem setShadow_touches_mesh_flags_only (object : ref)
    (cast receive : option bool) (w : World) :
  exists w',
    world_after (setShadow object cast receive w) = Some w'
    /\ pending w' = pending w
    /\ length (heap w') = length (heap w)
    /\ forall r o, heap w !! r = Some o ->
         exists o', heap w' !! r = Some o'
           /\ kind o' = kind o /\ name o' = name o
           /\ background o' = background o
           /\ position o' = position o /\ children o' = children o
           /\ (isMesh o = false ->
               castShadow o' = castShadow o
               /\ receiveShadow o' = receiveShadow o).
Proof.
  destruct (keeps_frame_setShadow object cast receive w) as (w' & Hw' & P & L & H).
  exists w'. split; [exact Hw'|]. split; [exact P|]. split; [exact L|].
  intros r o Hr. destruct (H r o Hr) as (o' & Hr' & K & N & B & Po & C & S).
  exists o'. repeat split; auto; now apply S.
Qed.


Lemma shaded_idem (cast receive : bool) (o : Object3D) :
  shaded cast receive (shaded cast receive o) = shaded cast receive o.
Proof. unfold shaded. destruct o as [[] ? ? ? ? ? ?]; reflexivity. Qed.

Lemma children_shaded (cast receive : bool) (o : Object3D) :
  children (shaded cast receive o) = children o.
Proof. unfold shaded. destruct (isMesh o); reflexivity. Qed.

Section Traversal.
Variables (cast receive : bool) (h0 : list Object3D) (p : list LoadRequest).

Let visit : ref -> M unit := fun child =>
  c <- get child ;;
  if isMesh c then
    modify child (with_castShadow cast) ;;;
    modify child (with_receiveShadow receive)
  else ret tt.

Let shaded0 (r : ref) : option Object3D := shaded cast receive <$> h0 !! r.

Lemma partly_shaded_refl : partly_shaded cast receive h0 h0.
Proof. split; [reflexivity | auto]. Qed.

Lemma partly_shaded_visit (hc : list Object3D) (r : ref) (o : Object3D) :
  partly_shaded cast receive h0 hc -> h0 !! r = Some o ->
  exists oc, hc !! r = Some oc
    /\ partly_shaded cast receive h0 (<[r := shaded cast receive oc]> hc)
    /\ <[r := shaded cast receive oc]> hc !! r = shaded0 r.
Proof.
  intros [L H] Ho.
  assert (Hlt : (r < length hc)%nat) by (rewrite L; eapply lookup_lt_Some; eauto).
  assert (E : exists oc, hc !! r = Some oc
                /\ shaded cast receive oc = shaded cast receive o).
  { destruct (H r o Ho) as [E | E]; eexists; (split; [exact E|]);
      [reflexivity | apply shaded_idem]. }
  destruct E as (oc & Hoc & Eoc). exists oc. split; [exact Hoc|]. split.
  - split; [now rewrite length_insert|]. intros r2 o2 Ho2.
    destruct (decide (r = r2)) as [<- | Hne].
    + right. rewrite list_lookup_insert_eq by exact Hlt. congruence.
    + rewrite list_lookup_insert_ne by exact Hne. now apply H.
  - unfold shaded0. rewrite list_lookup_insert_eq, Ho by exact Hlt.
    simpl. now rewrite Eoc.
Qed.

(** The walk below an object of a tree returns; it has visited the object
    and all below it, once shaded an object stays shaded, and the rest is
    untouched. *)
Lemma traverse_fuel_shades (fuel : nat) :
  forall (object : ref) (hc : list Object3D),
  partly_shaded cast receive h0 hc ->
  tree_below h0 fuel object = true ->
  exists h',
    traverse_fuel fuel object visit (mkWorld hc p) = Returns tt (mkWorld h' p)
    /\ partly_shaded cast receive h0 h'
    /\ (forall r, hc !! r = shaded0 r -> h' !! r = shaded0 r)
    /\ (forall d, descendant h0 object d -> h' !! d = shaded0 d)
    /\ (forall r, ~ descendant h0 object r -> h' !! r = hc !! r).
Proof.
  induction fuel as [|fuel IH]; intros object hc Hpart Htree; [discriminate|].
  cbn [tree_below] in Htree.
  destruct (h0 !! object) as [o|] eqn:Ho; [|discriminate].
  destruct (partly_shaded_visit hc object o Hpart Ho) as (oc & Hoc & Hpart1 & Hobj).
  assert (Hch : children (shaded cast receive oc) = children o).
  { rewrite children_shaded. destruct Hpart as [_ H].
    destruct (H object o Ho) as [E | E]; rewrite E in Hoc;
      injection Hoc as <-; [reflexivity | apply children_shaded]. }
  set (h1 := <[object := shaded cast receive oc]> hc) in *.
  assert (Hlt : (object < length hc)%nat) by (eapply lookup_lt_Some; eauto).
  (* the children, one after the other *)
  assert (Hloop : forall cs hx,
    partly_shaded cast receive h0 hx ->
    forallb (tree_below h0 fuel) cs = true ->
    exists h',
      forEach cs (fun child => traverse_fuel fuel child visit) (mkWorld hx p)
      = Returns tt (mkWorld h' p)
      /\ partly_shaded cast receive h0 h'
      /\ (forall r, hx !! r = shaded0 r -> h' !! r = shaded0 r)
      /\ (forall c d, In c cs -> descendant h0 c d -> h' !! d = shaded0 d)
      /\ (forall r, (forall c, In c cs -> ~ descendant h0 c r) ->
                    h' !! r = hx !! r)).
  { induction cs as [|c cs IHcs]; intros hx Hx Hall.
    - exists hx. split; [reflexivity|]. split; [exact Hx|].
      split; [auto|]. split; [intros c d []|]. auto.
    - cbn [forallb] in Hall. apply andb_true_iff in Hall as [Hc Hcs].
      destruct (IH c hx Hx Hc) as (h2 & Run2 & Hx2 & St2 & De2 & No2).
      destruct (IHcs h2 Hx2 Hcs) as (h3 & Run3 & Hx3 & St3 & De3 & No3).
      exists h3. split; [cbn [forEach]; unfold bind; now rewrite Run2|].
      split; [exact Hx3|]. split; [auto|]. split.
      + intros c' d [<- | Hin] Hd; [apply St3, De2, Hd | eapply De3; eauto].
      + intros r Hr. rewrite No3 by (intros c' Hin; apply Hr; now right).
        apply No2, Hr. now left. }
  destruct (Hloop (children o) h1 Hpart1 Htree) as (h' & Run & Hp' & St & De & No).
  exists h'. split.
  - cbn [traverse_fuel]. unfold bind at 1. unfold visit.
    rewrite (setShadow_visit_run _ _ _ _ _ _ Hoc). fold h1.
    unfold bind at 1, get. cbn [heap].
    subst h1. rewrite list_lookup_insert_eq by exact Hlt. rewrite Hch. exact Run.
  - split; [exact Hp'|]. split; [|split].
    + intros r Hr. apply St. subst h1.
      destruct (decide (object = r)) as [<- | Hne]; [exact Hobj|].
      now rewrite list_lookup_insert_ne.
    + intros d Hd. inversion Hd as [| r o2 c d2 Ho2 Hin Hcd]; subst.
      * apply St, Hobj.
      * rewrite Ho in Ho2. injection Ho2 as <-. eapply De; eauto.
    + intros r Hr. rewrite No.
      * subst h1. apply list_lookup_insert_ne. intros ->. apply Hr. constructor.
      * intros c Hin Hd. apply Hr. econstructor; eauto.
Qed.
End Traversal.

(** X2. On an object with no cycle below it, [setShadow] returns; the object
    and every object below it is then [shaded] (a mesh has the two flags it
    was given, any other object is as before), every other object of the
    store is untouched, and so are the pending requests. *)
Theorem setShadow_shades_tree (object : ref) (cast receive : option bool)
    (w : World) :
  acyclic_below w object = true ->
  exists w',
    setShadow object cast receive w = Returns tt w'
    /\ pending w' = pending w
    /\ (forall d, descendant (heap w) object d ->
          heap w' !! d
          = shaded (default true cast) (default true receive) <$> heap w !! d)
    /\ (forall r, ~ descendant (heap w) object r ->
          heap w' !! r = heap w !! r).
Proof.
  intros Hacyclic. destruct w as [h p]. unfold acyclic_below in Hacyclic.
  cbn [heap pending] in *.
  destruct (traverse_fuel_shades (default true cast) (default true receive)
              h p (S (length h)) object h (partly_shaded_refl _ _ _) Hacyclic)
    as (h' & Run & _ & _ & De & No).
  exists (mkWorld h' p). split; [exact Run|]. split; [reflexivity|].
  split; [exact De | exact No].
Qed.

Lemma setShadow_shades_tree_witness :
  exists w',
    setShadow 2%nat (Some false) None asset_world = Returns tt w'
    /\ pending w' = pending asset_world
    /\ (forall d, descendant (heap asset_world) 2%nat d ->
          heap w' !! d
          = shaded (default true (Some false)) (default true None)
              <$> heap asset_world !! d)
    /\ (forall r, ~ descendant (heap asset_world) 2%nat r ->
          heap w' !! r = heap asset_world !! r).
Proof.
  apply (setShadow_shades_tree 2%nat (Some false) None asset_world).
  reflexivity.
Defined.

Lemma forallb_ext_in {A} (f g : A -> bool) (l : list A) :
  (forall a, f a = g a) -> forallb f l = forallb g l.
Proof. intros H. induction l as [|a l IH]; simpl; [reflexivity | now rewrite H, IH]. Qed.

(** The shape of the store, its children lists, decides what is a tree and
    what is below what. *)
Lemma tree_below_ext (h h' : list Object3D) :
  (forall r, children <$> h' !! r = children <$> h !! r) ->
  forall depth r, tree_below h' depth r = tree_below h depth r.
Proof.
  intros H. induction depth as [|depth IH]; intros r; [reflexivity|].
  cbn [tree_below]. specialize (H r).
  destruct (h' !! r) as [o'|], (h !! r) as [o|]; simpl in H; try discriminate;
    [|reflexivity].
  injection H as ->. now apply forallb_ext_in.
Qed.

Lemma descendant_ext (h h' : list Object3D) (r d : ref) :
  (forall r, children <$> h' !! r = children <$> h !! r) ->
  descendant h r d -> descendant h' r d.
Proof.
  intros H Hd. induction Hd as [r | r o c d Ho Hin Hcd IH]; [constructor|].
  specialize (H r). rewrite Ho in H.
  destruct (h' !! r) as [o'|] eqn:Ho'; simpl in H; [|discriminate].
  injection H as H.
  apply (descendant_child h' r o' c d Ho'); [rewrite H; exact Hin | exact IH].
Qed.

Lemma children_insert_same (h : list Object3D) (i : ref) (o o' : Object3D) :
  h !! i = Some o -> children o' = children o ->
  forall r, children <$> <[i := o']> h !! r = children <$> h !! r.
Proof.
  intros Hi Hc r. destruct (decide (i = r)) as [<- | Hne].
  - rewrite list_lookup_insert_eq by (eapply lookup_lt_Some; eauto).
    rewrite Hi. simpl. now rewrite Hc.
  - now rewrite list_lookup_insert_ne.
Qed.



(** ** More of [createBaseplate]: what the group holds when it returns *)

(** X5. With assets, as the source has the flag, a call that terminates
    returns a group that has no child yet and is the only new object: the
    tiles come with the loads.  Every request it has queued is for the base
    tile asset, and its callback will add to the group returned. *)
Theorem asset_mode_group_starts_empty (w : World) (scene : ref) (s : Object3D)
    (width len : number) (plateHeight tileSize : option number) :
  heap w !! scene = Some s ->
  createBaseplate scene width len plateHeight tileSize w = Diverges
  \/ exists (bp : ref) (w' : World),
       createBaseplate scene width len plateHeight tileSize w = Returns bp w'
       /\ heap w' !! bp = Some baseplate_group
       /\ children baseplate_group = []
       /\ length (heap w') = S (length (heap w))
       /\ Forall (fun r => url r = "./assets/base_tile.glb"
                           /\ baseplate (onLoad r) = bp)
            (requested w w').
Proof.
  intros Hs.
  assert (Hlt : (scene < length (heap w))%nat) by (eapply lookup_lt_Some; eauto).
  destruct (iterations_cases (tilesX width (default (Num 4) tileSize))
              (tilesZ len (default (Num 4) tileSize)))
    as [(n & m & Hn & Hm) | Hdiv];
    [right | left; now apply createBaseplateWith_diverges].
  do 2 eexists.
  split; [apply (createBaseplateWith_run _ _ _ s _ _ _ _ n m); eassumption|].
  unfold built_world, useTileAsset, requested. cbn zeta. cbn [heap pending].
  split; [rewrite list_lookup_insert_ne by lia; apply lookup_last|].
  split; [reflexivity|].
  split; [rewrite length_insert, length_app; simpl; lia|].
  rewrite drop_app_length. apply Forall_fmap, Forall_forall.
  intros c _. split; reflexivity.
Qed.

Lemma asset_mode_group_starts_empty_witness :
  createBaseplate 0%nat (Num 9) (Num 7) None None test_scene = Diverges
  \/ exists (bp : ref) (w' : World),
       createBaseplate 0%nat (Num 9) (Num 7) None None test_scene
         = Returns bp w'
       /\ heap w' !! bp = Some baseplate_group
       /\ children baseplate_group = []
       /\ length (heap w') = S (length (heap test_scene))
       /\ Forall (fun r => url r = "./assets/base_tile.glb"
                           /\ baseplate (onLoad r) = bp)
            (requested test_scene w').
Proof.
  apply (asset_mode_group_starts_empty test_scene 0%nat (new_object KScene)).
  reflexivity.
Defined.

(** X6. With simple geometry, a call that terminates queues no request and
    returns a group whose children are exactly the new objects after it, one
    per position of the layout and in its order: each a childless mesh at
    its position, a box of tileSize by 0.5 by tileSize of colour 0x333333
    and roughness 0.8, that receives shadows and casts none. *)
Theorem geometry_mode_tiles (w : World) (scene : ref) (s : Object3D)
    (width len : number) (plateHeight tileSize : option number) :
  heap w !! scene = Some s ->
  let ts := default (Num 4) tileSize in
  let positions := layout width len (default (Num (-4)) plateHeight) ts in
  createBaseplateWith false scene width len plateHeight tileSize w = Diverges
  \/ exists (bp : ref) (w' : World) (g : Object3D),
       createBaseplateWith false scene width len plateHeight tileSize w
         = Returns bp w'
       /\ pending w' = pending w
       /\ heap w' !! bp = Some g
       /\ name g = "Baseplate"
       /\ children g = seq (S bp) (length positions)
       /\ length (heap w') = (S bp + length positions)%nat
       /\ forall i pos, positions !! i = Some pos ->
            heap w' !! (S bp + i)%nat
            = Some (mkObject3D
                      (KMesh (BoxGeometry ts (Num 0.5) ts)
                             (MeshStandardMaterial 0x333333 (Num 0.8)))
                      EmptyString pos false true [] None).
Proof.
  intros Hs ts positions.
  assert (Hlt : (scene < length (heap w))%nat) by (eapply lookup_lt_Some; eauto).
  destruct (iterations_cases (tilesX width ts) (tilesZ len ts))
    as [(n & m & Hn & Hm) | Hdiv];
    [right | left; now apply createBaseplateWith_diverges].
  assert (Hpos : positions
                 = tile_position ts (default (Num (-4)) plateHeight)
                     (offsetX (tilesX width ts) ts) (offsetZ (tilesZ len ts) ts)
                   <$> cells n m).
  { unfold positions, layout. rewrite Hn. cbn [default from_option id].
    destruct Hm as [-> | ->]; reflexivity. }
  do 3 eexists.
  split; [apply (createBaseplateWith_run _ _ _ s _ _ _ _ n m); eassumption|].
  unfold built_world. cbn zeta. cbn [heap pending]. fold ts.
  split; [reflexivity|].
  split; [rewrite list_lookup_insert_ne by lia;
          now apply list_lookup_middle|].
  rewrite Hpos, length_fmap.
  split; [reflexivity|]. split; [reflexivity|].
  split; [rewrite length_insert, length_app; cbn [length];
          rewrite length_fmap; lia|].
  intros i pos Hi.
  rewrite list_lookup_insert_ne by lia.
  rewrite lookup_app_r by lia.
  replace (S (length (heap w)) + i - length (heap w))%nat with (S i) by lia.
  match goal with
  | |- (?x :: ?l) !! S i = _ => change ((x :: l) !! S i) with (l !! i)
  end.
  rewrite list_lookup_fmap in Hi. rewrite list_lookup_fmap.
  destruct (cells n m !! i) as [c|]; simpl in Hi |- *; [|discriminate].
  injection Hi as <-. reflexivity.
Qed.

Lemma geometry_mode_tiles_witness :
  createBaseplateWith false 0%nat (Num 9) (Num 7) None None test_scene
    = Diverges
  \/ exists (bp : ref) (w' : World) (g : Object3D),
       createBaseplateWith false 0%nat (Num 9) (Num 7) None None test_scene
         = Returns bp w'
       /\ pending w' = pending test_scene
       /\ heap w' !! bp = Some g
       /\ name g = "Baseplate"
       /\ children g
          = seq (S bp) (length (layout (Num 9) (Num 7) (Num (-4)) (Num 4)))
       /\ length (heap w')
          = (S bp + length (layout (Num 9) (Num 7) (Num (-4)) (Num 4)))%nat
       /\ forall i pos,
            layout (Num 9) (Num 7) (Num (-4)) (Num 4) !! i = Some pos ->
            heap w' !! (S bp + i)%nat
            = Some (mkObject3D
                      (KMesh (BoxGeometry (Num 4) (Num 0.5) (Num 4))
                             (MeshStandardMaterial 0x333333 (Num 0.8)))
                      EmptyString pos false true [] None).
Proof.
  apply (geometry_mode_tiles test_scene 0%nat (new_object KScene)
           (Num 9) (Num 7) None None).
  reflexivity.
Defined.

(** ** More of main.js: what a click builds *)

Lemma init_run (a b : number) (w : World) (n m : nat) :
  iterations (tilesX a (Num 4)) = Some n ->
  n = O \/ iterations (tilesZ b (Num 4)) = Some m ->
  init (Some a) (Some b) w
  = Returns tt
      (mkWorld
         (heap w ++ [lit_scene (length (heap w)); ambient_light;
                     directional_light; baseplate_group])
         (pending w
          ++ (tile_request (Num 4) (Num (-4))
                (offsetX (tilesX a (Num 4)) (Num 4))
                (offsetZ (tilesZ b (Num 4)) (Num 4))
                (length (heap w) + 3) <$> cells n m))).
Proof.
  intros Hn Hm. destruct w as [h p].
  unfold init. cbn [default from_option id heap pending].
  unfold bind at 1. unfold alloc at 1. cbn [heap pending].
  unfold bind at 1. unfold alloc at 1. cbn [heap pending].
  rewrite length_app, <- app_assoc. cbn [length app].
  unfold bind at 1. unfold add at 1.
  erewrite (modify_app_run _ 0 _ h); [|lia|reflexivity]. cbn [insert list_insert].
  unfold bind at 1. unfold alloc at 1. cbn [heap pending].
  rewrite length_app, <- app_assoc. cbn [length app].
  unfold bind at 1. unfold position_set at 1.
  erewrite (modify_app_run _ 2 _ h); [|lia|reflexivity]. cbn [insert list_insert].
  unfold bind at 1.
  erewrite (modify_app_run _ 2 _ h); [|lia|reflexivity]. cbn [insert list_insert].
  unfold bind at 1. unfold add at 1.
  erewrite (modify_app_run _ 0 _ h); [|lia|reflexivity]. cbn [insert list_insert].
  unfold setupEnvironment. cbn [default from_option id vy].
  unfold bind at 1.
  erewrite (modify_app_run _ 0 _ h); [|lia|reflexivity]. cbn [insert list_insert].
  unfold bind at 1. unfold createBaseplate.
  erewrite (createBaseplateWith_run useTileAsset _ (length h) _ _ _ _ _ n m);
    [ | cbn [heap]; rewrite lookup_app_r, Nat.sub_diag by lia; reflexivity
      | exact Hn | exact Hm ].
  unfold built_world, useTileAsset, ret.
  cbn zeta. cbn [heap pending default from_option id].
  rewrite <- app_assoc, length_app. cbn [length app].
  replace (length h) with (length h + 0)%nat at 1 by lia.
  rewrite insert_app_r. reflexivity.
Qed.


Lemma Qceiling_quarter (a : Z) : Qceiling (inject_Z a / 4) = ((a + 3) / 4)%Z.
Proof.
  unfold Qceiling, Qfloor, Qdiv, Qmult, Qinv, Qopp, inject_Z. simpl.
  Z.div_mod_to_equations. lia.
Qed.



(** ** More of [createBaseplate]: tile sizes and dimensions off the contract *)







(** ** More of [createBaseplate]: where each tile goes *)

Lemma list_prod_lookup {A B} (l1 : list A) (l2 : list B) (i j : nat) (a : A) (b : B) :
  l1 !! i = Some a -> l2 !! j = Some b ->
  list_prod l1 l2 !! (i * length l2 + j)%nat = Some (a, b).
Proof.
  revert i. induction l1 as [|x l1 IH]; intros i Ha Hb; [discriminate|].
  cbn [list_prod]. destruct i as [|i].
  - injection Ha as ->. simpl.
    rewrite lookup_app_l
      by (rewrite length_map; eapply lookup_lt_Some; eauto).
    change (map (fun y : B => (a, y)) l2) with ((fun y : B => (a, y)) <$> l2).
    now rewrite list_lookup_fmap, Hb.
  - rewrite lookup_app_r by (rewrite length_map; simpl; lia).
    rewrite length_map.
    replace (S i * length l2 + j - length l2)%nat with (i * length l2 + j)%nat
      by (simpl; lia).
    now apply IH.
Qed.

Lemma cells_lookup (n m x z : nat) :
  (x < n)%nat -> (z < m)%nat -> cells n m !! (x * m + z)%nat = Some (x, z).
Proof.
  intros Hx Hz. unfold cells.
  replace (x * m + z)%nat with (x * length (seq 0 m) + z)%nat
    by now rewrite length_seq.
  apply list_prod_lookup; now apply lookup_seq_lt.
Qed.



Lemma abut_Q (k ts i : Q) :
  let off := (k * ts / 2 - ts / 2)%Q in
  ((i + 1) * ts - off - (i * ts - off) == ts)%Q
  /\ (0 * ts - off - ts / 2 == - (k * ts / 2))%Q
  /\ (k * ts / 2 - ((k - 1) * ts - off) == ts / 2)%Q.
Proof. cbv zeta. repeat split; field. Qed.



Lemma NoDup_list_prod {A B} (l1 : list A) (l2 : list B) :
  NoDup l1 -> NoDup l2 -> NoDup (list_prod l1 l2).
Proof.
  intros H1 H2. induction H1 as [|x l1 Hx H1 IH]; [constructor|].
  cbn [list_prod]. apply NoDup_app. split; [|split; [|exact IH]].
  - change (map (fun y : B => (x, y)) l2) with ((fun y : B => (x, y)) <$> l2).
    apply NoDup_fmap_2_strong; [|exact H2]. intros a b _ _ E. congruence.
  - intros [a b] Hin Hin'. apply list_elem_of_In in Hin, Hin'.
    apply in_map_iff in Hin as (y & [= <- <-] & _).
    apply in_prod_iff in Hin' as [Hin' _]. apply Hx, list_elem_of_In, Hin'.
Qed.

Lemma spec_coordinate_inj (count : Z) (tileSize : Q) (i j : nat) :
  (0 < tileSize)%Q ->
  spec_coordinate count tileSize i = spec_coordinate count tileSize j -> i = j.
Proof.
  intros Ht E.
  assert (Hne : ~ (tileSize == 0)%Q)
    by (intros H; rewrite H in Ht; now apply Qlt_irrefl in Ht).
  assert (Eq : (spec_coordinate count tileSize i
                == spec_coordinate count tileSize j)%Q) by now rewrite E.
  unfold spec_coordinate, Qminus in Eq.
  apply (proj1 (Qplus_inj_r _ _ _)) in Eq.
  apply (proj1 (Qmult_inj_r _ _ _ Hne)) in Eq.
  apply (proj1 (inject_Z_injective _ _)) in Eq. lia.
Qed.



(** ** More of scene.js: [setupEnvironment] *)

(** X15. [setupEnvironment], on any object given as the scene, sets its
    background to 0x9ad0ec and then builds the baseplate on it: unless that
    does not terminate, it returns, the scene has the new group as its last
    child, no other object that existed has changed, and the requests
    queued are those of the layout at height -4 with tiles of size 4, a
    dimension left out counting as 80. *)
Theorem setupEnvironment_builds_plate (w : World) (scene : ref) (s : Object3D)
    (baseplateWidth baseplateLength : option number) :
  heap w !! scene = Some s ->
  setupEnvironment scene baseplateWidth baseplateLength w = Diverges
  \/ exists w',
       setupEnvironment scene baseplateWidth baseplateLength w = Returns tt w'
       /\ heap w' !! scene
          = Some (with_children (children s ++ [length (heap w)])
                    (with_background (Some 0x9ad0ec) s))
       /\ heap w' !! length (heap w) = Some baseplate_group
       /\ (forall r o, r <> scene -> heap w !! r = Some o ->
                      heap w' !! r = Some o)
       /\ pending w' = pending w ++ requested w w'
       /\ request_position <$> requested w w'
          = layout (default (Num 80) baseplateWidth)
              (default (Num 80) baseplateLength) (Num (-4)) (Num 4).
Proof.
  intros Hs. destruct w as [h p]. cbn [heap pending] in *.
  assert (Hlt : (scene < length h)%nat) by (eapply lookup_lt_Some; eauto).
  set (a := default (Num 80) baseplateWidth).
  set (b := default (Num 80) baseplateLength).
  set (s1 := with_background (Some 0x9ad0ec) s).
  set (h1 := <[scene := s1]> h).
  assert (Hs1 : h1 !! scene = Some s1) by now apply list_lookup_insert_eq.
  assert (Hstep :
            setupEnvironment scene baseplateWidth baseplateLength (mkWorld h p)
            = (createBaseplate scene a b (Some (Num (-4))) None ;;; ret tt)
                (mkWorld h1 p)).
  { unfold setupEnvironment. cbn zeta. fold a b.
    unfold bind at 1. now rewrite (modify_run _ _ _ _ _ Hs). }
  rewrite Hstep. unfold bind, createBaseplate.
  destruct (iterations_cases (tilesX a (Num 4)) (tilesZ b (Num 4)))
    as [(n & m & Hn & Hm) | Hdiv].
  - right.
    rewrite (createBaseplateWith_run useTileAsset (mkWorld h1 p) scene s1
               a b (Some (Num (-4))) None n m Hs1 Hn Hm).
    eexists. split; [reflexivity|].
    unfold built_world, useTileAsset, requested. cbn zeta.
    cbn [heap pending default from_option id].
    subst h1. rewrite length_insert.
    split; [apply list_lookup_insert_eq; rewrite length_app, length_insert; lia|].
    split; [rewrite list_lookup_insert_ne by lia;
            rewrite <- (length_insert h scene s1); apply lookup_last|].
    split.
    { intros r o Hr Ho. rewrite list_lookup_insert_ne by congruence.
      apply lookup_app_l_Some. now rewrite list_lookup_insert_ne by congruence. }
    rewrite drop_app_length. split; [reflexivity|].
    unfold layout. rewrite Hn. cbn [default from_option id].
    rewrite <- list_fmap_compose.
    destruct Hm as [-> | ->]; reflexivity.
  - left. now rewrite createBaseplateWith_diverges.
Qed.

Lemma setupEnvironment_builds_plate_witness :
  setupEnvironment 0%nat None (Some (Num 9)) test_scene = Diverges
  \/ exists w',
       setupEnvironment 0%nat None (Some (Num 9)) test_scene = Returns tt w'
       /\ heap w' !! 0%nat
          = Some (with_children
                    (children (new_object KScene) ++ [length (heap test_scene)])
                    (with_background (Some 0x9ad0ec) (new_object KScene)))
       /\ heap w' !! length (heap test_scene) = Some baseplate_group
       /\ (forall r o, r <> 0%nat -> heap test_scene !! r = Some o ->
                      heap w' !! r = Some o)
       /\ pending w' = pending test_scene ++ requested test_scene w'
       /\ request_position <$> requested test_scene w'
          = layout (default (Num 80) None) (default (Num 80) (Some (Num 9)))
              (Num (-4)) (Num 4).
Proof.
  apply (setupEnvironment_builds_plate test_scene 0%nat (new_object KScene)).
  reflexivity.
Defined.

(** ** More of [createBaseplate]: the grid against the request *)



(** X17. For a positive tile size, asking for more never gives less: if
    width <= width' then tilesX of width <= tilesX of width', and so for
    the length and tilesZ. *)
Theorem grid_grows_with_request (width width' len len' tileSize : Q) :
  (0 < tileSize)%Q -> (width <= width')%Q -> (len <= len')%Q ->
  (tilesX (Num width) (Num tileSize) <=? tilesX (Num width') (Num tileSize))
  = true
  /\ (tilesZ (Num len) (Num tileSize) <=? tilesZ (Num len') (Num tileSize))
     = true.
Proof.
  intros Ht Hw Hl.
  assert (H : forall a b : Q, (a <= b)%Q ->
             (inject_Z (Qceiling (a / tileSize))
              <= inject_Z (Qceiling (b / tileSize)))%Q).
  { intros a b Hab. rewrite <- Zle_Qle. apply Qceiling_resp_le.
    apply Qmult_le_compat_r; [exact Hab|].
    apply Qlt_le_weak, Qinv_lt_0_compat, Ht. }
  rewrite 2!tilesX_Num, 2!tilesZ_Num by exact Ht.
  split; unfold of_Z, le; apply Qle_bool_iff, H; assumption.
Qed.

Lemma grid_grows_with_request_witness :
  (tilesX (Num 20) (Num 4) <=? tilesX (Num 22) (Num 4)) = true
  /\ (tilesZ (Num (-3)) (Num 4) <=? tilesZ (Num 9) (Num 4)) = true.
Proof.
  apply (grid_grows_with_request 20 22 (-3) 9 4);
    [reflexivity | discriminate | discriminate].
Defined.
